(** * strawberry.schema.execute_context: a promise-aware GraphQL executor

    A shallow embedding of [ExecutionContextWithPromise] and of the two
    module-level helpers [is_awaitable] and [promise_for_dict], followed by
    the properties the specification states about them. *)

From Stdlib Require Import ZArith.
From stdpp Require Import base option list strings.

#[local] Set Warnings "-register-all".

(** ** Python values *)

(** A promise is an object with identity: it is pending first and settles
    later, and everyone holding a reference sees the change.  Values refer to
    promises by their address in the promise heap. *)
Abbreviation pid := nat.

Inductive Value : Type :=
| VNone
| VUndefined                              (* graphql.pyutils.Undefined *)
| VBool (b : bool)
| VInt (z : Z)
| VStr (s : string)
| VList (l : list Value)
| VDict (d : list (string * Value))       (* insertion-ordered dict *)
| VPromise (p : pid)                      (* strawberry.promise.Promise *)
| VAwaitable (a : nat).                   (* coroutine, asyncio future, ... *)

(** A [dict] keeps insertion order; assigning to a key that is present
    replaces the value in place and leaves the key where it is. *)
Definition dict := list (string * Value).

Definition keys (d : dict) : list string := d.*1.
Definition values (d : dict) : list Value := d.*2.

Fixpoint dict_set (k : string) (v : Value) (d : dict) : dict :=
  match d with
  | [] => [(k, v)]
  | (k', v') :: d' =>
      if decide (k = k') then (k, v) :: d' else (k', v') :: dict_set k v d'
  end.

(** [dict(pairs)]: the pairs are inserted one after the other. *)
Definition dict_of (pairs : list (string * Value)) : dict :=
  foldl (fun d kv => dict_set kv.1 kv.2 d) [] pairs.

Definition is_undefined (v : Value) : bool :=
  match v with VUndefined => true | _ => false end.

(** Modelled from the spec: [strawberry.promise.is_thenable] is missing from
    the sources.  "A predicate distinguishes: is this object one of our
    deferred values". *)
Definition is_thenable (v : Value) : bool :=
  match v with VPromise _ => true | _ => false end.

(** ** Execution paths *)

Inductive path_key := KStr (s : string) | KIdx (i : nat).

(** Modelled from the spec: [graphql.pyutils.Path] is a type of the
    graphql-core library.  "An immutable, singly-linked chain of (parent path,
    response key, owning type name)", "rendered as an ordered list of
    (key-or-index) segments from root to the failing field". *)
Inductive Path := MkPath (prev : option Path) (key : path_key) (typename : option string).

Fixpoint as_list_rev (p : Path) : list path_key :=
  match p with
  | MkPath prev key _ =>
      key :: match prev with Some q => as_list_rev q | None => [] end
  end.

Definition as_list (p : Path) : list path_key := reverse (as_list_rev p).

(** ** What the graphql-core library provides *)

(** The syntax tree, the schema types and the exceptions are graphql-core's;
    the executor only passes them around.  [World] is whatever else the
    resolvers and the base class read and write. *)
Class GraphQLCore := {
  FieldNode : Type;
  OperationDefinitionNode : Type;
  GraphQLOutputType : Type;
  GraphQLObjectType : Type;
  GraphQLResolveInfo : Type;
  Exception : Type;
  World : Type;
  name : GraphQLObjectType -> string;
  (* graphql.pyutils.is_awaitable *)
  default_is_awaitable : Value -> bool;
  (* graphql.error.located_error *)
  located_error : Exception -> list FieldNode -> list path_key -> Exception;
  (* Python's own: iterating what is not iterable, calling a method that
     the object does not have *)
  TypeError : Exception;
  AttributeError : Exception;
}.

Reserved Notation "x <- m ;; k" (at level 100, m at next level, right associativity).

Section Executor.
Context `{GraphQLCore}.

(** [is_awaitable], lines 22-29. *)
Definition is_awaitable (value : Value) : bool :=
  if is_thenable value then false else default_is_awaitable value.

(** ** The promise heap and the queue of scheduled continuations *)

(** The closures of the source, one constructor each, holding the variables
    the closure captures ([self] is the one execution context). *)
Inductive on_fulfilled :=
| handle_success (value : dict)                                   (* line 43 *)
| promise_executor (operation : OperationDefinitionNode) (root_value : Value) (* line 64 *)
| on_resolve                                                       (* line 81 *)
| handle_resolve (return_type : GraphQLOutputType) (field_nodes : list FieldNode)
    (info : GraphQLResolveInfo) (path : Path).                     (* line 100 *)

Inductive on_rejection :=
| on_rejected                                                      (* line 77 *)
| handle_error (return_type : GraphQLOutputType) (field_nodes : list FieldNode)
    (path : Path).                                                 (* line 105 *)

(** Modelled from the spec: the states of a [strawberry.promise.Promise],
    which is missing from the sources.  A promise is pending or settled, and
    settled is fulfilled with a value or rejected with an exception. *)
Inductive outcome := Fulfilled (v : Value) | Rejected (e : Exception).

(** Modelled from the spec: what a promise owes to those that wait for it,
    the continuations given to [then], a place in the list [all] collects,
    or a promise that was resolved with this one. *)
Inductive reaction :=
| RThen (f : option on_fulfilled) (g : option on_rejection) (target : pid)
| RAll (index : nat) (target : pid)
| RAdopt (target : pid).

(** Modelled from the spec: a pending promise holds the reactions
    registered so far; the promise [all] returns also holds one slot per
    input. *)
Inductive pstate :=
| Pending (reactions : list reaction) (slots : list (option Value))
| Settled (o : outcome).

(** Modelled from the spec: "single-threaded cooperative scheduling".  What
    is scheduled is a reaction to a settled promise, or the settlement of a
    pending promise by the environment (a data loader, say). *)
Inductive task :=
| TReact (o : outcome) (r : reaction)
| TSettle (p : pid) (o : outcome).

(** The execution context's error list, the promises, the queue of
    scheduled tasks, and the rest of the world. *)
Record state := MkState {
  errors : list Exception;       (* self.errors *)
  heap : list pstate;
  queue : list task;
  world : World;
}.

Definition set_errors (f : list Exception -> list Exception) (s : state) : state :=
  MkState (f (errors s)) (heap s) (queue s) (world s).
Definition set_heap (f : list pstate -> list pstate) (s : state) : state :=
  MkState (errors s) (f (heap s)) (queue s) (world s).
Definition set_queue (f : list task -> list task) (s : state) : state :=
  MkState (errors s) (heap s) (f (queue s)) (world s).

(** ** Computations: state and exceptions *)

Inductive result (A : Type) := Ok (a : A) | Raise (e : Exception).
Arguments Ok {A} a.
Arguments Raise {A} e.

Definition M (A : Type) : Type := state -> result A * state.

Definition ret {A} (a : A) : M A := fun s => (Ok a, s).
Definition raise {A} (e : Exception) : M A := fun s => (Raise e, s).
Definition bind {A B} (m : M A) (k : A -> M B) : M B :=
  fun s => match m s with
           | (Ok a, s') => k a s'
           | (Raise e, s') => (Raise e, s')
           end.

Notation "x <- m ;; k" := (bind m (fun x => k)).

(** ** Modelled from the spec: the deferred value abstraction *)

(** Modelled from the spec: [strawberry.promise.Promise] is missing from the
    sources.  A promise settles once; "[then] schedules continuation(s) to
    run after settlement", so settling a promise moves its reactions to the
    queue, and reacting to a promise that has settled already goes through
    the queue as well. *)
Definition schedule (ts : list task) : state -> state :=
  set_queue (fun q => q ++ ts).

(** Modelled from the spec: a promise settles once; settling a pending
    promise schedules its reactions. *)
Definition settle (p : pid) (o : outcome) (s : state) : state :=
  match heap s !! p with
  | Some (Pending rs _) =>
      schedule (TReact o <$> rs) (set_heap (fun h => <[p := Settled o]> h) s)
  | _ => s
  end.

(** Modelled from the spec: a reaction to a pending promise waits with it;
    a reaction to a settled promise is scheduled at once. *)
Definition subscribe (p : pid) (r : reaction) (s : state) : state :=
  match heap s !! p with
  | Some (Pending rs sl) => set_heap (fun h => <[p := Pending (rs ++ [r]) sl]> h) s
  | Some (Settled o) => schedule [TReact o r] s
  | None => s
  end.

(** Modelled from the spec: a new promise object. *)
Definition alloc (st : pstate) : M pid :=
  fun s => (Ok (length (heap s)), set_heap (fun h => h ++ [st]) s).

(** Modelled from the spec: "[resolve(v)] wraps a value (already-deferred or
    not) into a deferred value in the fulfilled state without
    double-wrapping". *)
Definition Promise_resolve (v : Value) : M pid :=
  match v with
  | VPromise p => ret p
  | _ => alloc (Settled (Fulfilled v))
  end.

(** Modelled from the spec: "[then(onFulfilled, onRejected)] ... returns a
    new deferred value representing the continuation's outcome". *)
Definition Promise_then (p : pid) (f : option on_fulfilled) (g : option on_rejection)
  : M pid :=
  t <- alloc (Pending [] []) ;;
  fun s => (Ok t, subscribe p (RThen f g t) s).

(** Modelled from the spec: "[catch(onRejected)] is [then(None, onRejected)]". *)
Definition Promise_catch (p : pid) (g : on_rejection) : M pid :=
  Promise_then p None (Some g).

(** Modelled from the spec: "if the continuation itself returns a deferred
    value, the outer deferred value defers to it (flattening, not nesting)". *)
Definition resolve_with (t : pid) (v : Value) (s : state) : state :=
  match v with
  | VPromise q => subscribe q (RAdopt t) s
  | _ => settle t (Fulfilled v) s
  end.

(** Modelled from the spec: "[all(iterable)] returns a deferred value that
    fulfills with the ordered list of settled results once every input
    settles, or rejects with the first rejection encountered".  The promise
    returned keeps one slot per input. *)
Definition set_slot (t : pid) (i : nat) (v : Value) (s : state) : state :=
  match heap s !! t with
  | Some (Pending rs slots) =>
      set_heap (fun h => <[t := Pending rs (<[i := Some v]> slots)]> h) s
  | _ => s
  end.

(** Modelled from the spec: "fulfills with the ordered list of settled
    results once every input settles". *)
Definition all_check (t : pid) (s : state) : state :=
  match heap s !! t with
  | Some (Pending _ slots) =>
      match mapM id slots with
      | Some vs => settle t (Fulfilled (VList vs)) s
      | None => s
      end
  | _ => s
  end.

(** Modelled from the spec: [all] goes through its inputs in order; a value
    that is no promise fills its slot, a promise gets a reaction. *)
Fixpoint all_collect (t : pid) (i : nat) (vs : list Value) (s : state) : state :=
  match vs with
  | [] => s
  | v :: vs' =>
      all_collect t (S i) vs'
        match v with
        | VPromise q => subscribe q (RAll i t) s
        | _ => set_slot t i v s
        end
  end.

(** Modelled from the spec: [Promise.all]. *)
Definition Promise_all (vs : list Value) : M pid :=
  t <- alloc (Pending [] (replicate (length vs) None)) ;;
  fun s => (Ok t, all_check t (all_collect t 0 vs s)).

(** What a Python [for] (here: [zip]) sees of a value. *)
Definition iterate (v : Value) : option (list Value) :=
  match v with
  | VList l => Some l
  | VDict d => Some (VStr <$> keys d)
  | VStr s => Some ((fun c => VStr (String c EmptyString)) <$> String.list_ascii_of_string s)
  | _ => None
  end.

(** ** [promise_for_dict], lines 35-47 *)

(** [handle_success] keeps a reference to [value]; the one caller,
    [execute_fields], hands over a dict nobody else holds. *)
Definition promise_for_dict (value : dict) : M pid :=
  p <- Promise_all (values value) ;;
  Promise_then p (Some (handle_success value)) None.

(** ** The base class *)

(** [graphql.ExecutionContext] is graphql-core's and no part of this
    repository: the methods the subclass reaches through [super()] or
    inherits are parameters.  They may call back into the overriding methods;
    here they are any computation on the state. *)
Class ExecutionContext := {
  super_execute_operation : OperationDefinitionNode -> Value -> M Value;
  super_build_response : Value -> M Value;
  super_complete_value :
    GraphQLOutputType -> list FieldNode -> GraphQLResolveInfo -> Path -> Value -> M Value;
  handle_field_error : Exception -> GraphQLOutputType -> M unit;
  resolve_field : GraphQLObjectType -> Value -> list FieldNode -> Path -> M Value;
}.

Context `{ExecutionContext}.

(** ** [ExecutionContextWithPromise], lines 50-141 *)

(** [execute_operation], lines 58-68. *)
Definition execute_operation (operation : OperationDefinitionNode) (root_value : Value)
  : M Value :=
  p0 <- Promise_resolve VNone ;;
  promise <- Promise_then p0 (Some (promise_executor operation root_value)) None ;;
  ret (VPromise promise).

(** [complete_value], lines 90-113. *)
Definition complete_value (return_type : GraphQLOutputType) (field_nodes : list FieldNode)
    (info : GraphQLResolveInfo) (path : Path) (result : Value) : M Value :=
  if is_thenable result then
    p <- Promise_resolve result ;;
    completed <- Promise_then p (Some (handle_resolve return_type field_nodes info path))
                   (Some (handle_error return_type field_nodes path)) ;;
    ret (VPromise completed)
  else super_complete_value return_type field_nodes info path result.

(** [execute_fields], lines 115-141: the [for] loop with its two local
    variables, then the choice of what to return. *)
Fixpoint execute_fields_loop (parent_type : GraphQLObjectType) (source_value : Value)
    (path : option Path) (fields : list (string * list FieldNode))
    (contains_promise : bool) (results : dict) : M (bool * dict) :=
  match fields with
  | [] => ret (contains_promise, results)
  | (response_name, field_nodes) :: fields' =>
      let field_path := MkPath path (KStr response_name) (Some (name parent_type)) in
      result <- resolve_field parent_type source_value field_nodes field_path ;;
      if is_undefined result then
        execute_fields_loop parent_type source_value path fields' contains_promise results
      else
        execute_fields_loop parent_type source_value path fields'
          (if is_thenable result then true else contains_promise)
          (dict_set response_name result results)
  end.

Definition execute_fields (parent_type : GraphQLObjectType) (source_value : Value)
    (path : option Path) (fields : list (string * list FieldNode)) : M Value :=
  bind (execute_fields_loop parent_type source_value path fields false [])
    (fun '(contains_promise, results) =>
       if contains_promise : bool then
         p <- promise_for_dict results ;; ret (VPromise p)
       else ret (VDict results)).

(** ** Running the continuations *)

(** The bodies of the closures, lines 43-45, 64-65, 81-82 and 100-103. *)
Definition apply_fulfilled (f : on_fulfilled) (v : Value) : M Value :=
  match f with
  | handle_success value =>
      match iterate v with
      | Some resolved_values => ret (VDict (dict_of (zip (keys value) resolved_values)))
      | None => raise TypeError
      end
  | promise_executor operation root_value =>
      super_execute_operation operation root_value
  | on_resolve => super_build_response v
  | handle_resolve return_type field_nodes info path =>
      complete_value return_type field_nodes info path v
  end.

(** The bodies of the closures, lines 77-79 and 105-108. *)
Definition apply_rejected (g : on_rejection) (error : Exception) : M Value :=
  match g with
  | on_rejected => fun s => (Ok VNone, set_errors (fun l => l ++ [error]) s)
  | handle_error return_type field_nodes path =>
      _ <- handle_field_error (located_error error field_nodes (as_list path)) return_type ;;
      ret VNone
  end.

(** Modelled from the spec: "a new deferred value representing the
    continuation's outcome".  A continuation that returns resolves the
    promise [then] gave out; one that raises rejects it. *)
Definition finish (t : pid) (m : M Value) (s : state) : state :=
  match m s with
  | (Ok v, s') => resolve_with t v s'
  | (Raise e, s') => settle t (Rejected e) s'
  end.

(** Modelled from the spec: a reaction runs once its promise has settled.
    Without a continuation for the outcome, [then] passes the outcome on;
    [all] "rejects with the first rejection encountered". *)
Definition run_reaction (o : outcome) (r : reaction) : state -> state :=
  match r with
  | RAdopt t => settle t o
  | RAll i t =>
      match o with
      | Fulfilled v => fun s => all_check t (set_slot t i v s)
      | Rejected e => settle t (Rejected e)
      end
  | RThen f g t =>
      match o with
      | Fulfilled v =>
          match f with Some f => finish t (apply_fulfilled f v) | None => settle t o end
      | Rejected e =>
          match g with Some g => finish t (apply_rejected g e) | None => settle t o end
      end
  end.

(** Modelled from the spec: a scheduled task is run. *)
Definition run_task (t : task) : state -> state :=
  match t with
  | TReact o r => run_reaction o r
  | TSettle p o => settle p o
  end.

(** Modelled from the spec: one turn of the loop takes the task at the head
    of the queue. *)
Definition step (s : state) : option state :=
  match queue s with
  | [] => None
  | t :: q => Some (run_task t (set_queue (fun _ => q) s))
  end.

(** Modelled from the spec: at most [fuel] turns of the loop. *)
Fixpoint run_queue (fuel : nat) (s : state) : state :=
  match fuel with
  | 0 => s
  | S n => match step s with Some s' => run_queue n s' | None => s end
  end.

(** Modelled from the spec: [Promise.get] is missing from the sources, and
    the class is "only usable in a sync context" (line 53).  It waits until
    the promise has settled, then returns the value it was fulfilled with or
    raises what it was rejected with.  [None]: the promise is still pending
    when the fuel or the queue runs out. *)
Fixpoint Promise_get (fuel : nat) (p : pid) (s : state) : option (result Value * state) :=
  match heap s !! p with
  | Some (Settled (Fulfilled v)) => Some (Ok v, s)
  | Some (Settled (Rejected e)) => Some (Raise e, s)
  | _ =>
      match fuel with
      | 0 => None
      | S n => match step s with Some s' => Promise_get n p s' | None => None end
      end
  end.

(** [build_response], lines 70-88.  [cast] does nothing at run time. *)
Definition build_response (fuel : nat) (data : Value) (s : state)
  : option (result Value * state) :=
  if is_thenable data then
    match data with
    | VPromise data =>
        match (p1 <- Promise_catch data on_rejected ;;
               Promise_then p1 (Some on_resolve) None) s with
        | (Ok promise, s') => Promise_get fuel promise s'
        | (Raise e, s') => Some (Raise e, s')
        end
    | _ => Some (Raise AttributeError, s)
    end
  else Some (super_build_response data s).

End Executor.

Arguments Ok {_ A} a.
Arguments Raise {_ A} e.
Notation "x <- m ;; k" := (bind m (fun x => k)).

(** ** What the properties are stated with *)

Section Reference.
Context `{GraphQLCore} `{!ExecutionContext}.

(** "For every response key, compute a fresh Execution Path segment, invoke
    field resolution": one call per key, in the order of the mapping. *)
Fixpoint resolve_in_order (parent_type : GraphQLObjectType) (source_value : Value)
    (path : option Path) (fields : list (string * list FieldNode))
  : M (list (string * Value)) :=
  match fields with
  | [] => ret []
  | (response_name, field_nodes) :: fields' =>
      result <- resolve_field parent_type source_value field_nodes
                  (MkPath path (KStr response_name) (Some (name parent_type))) ;;
      rest <- resolve_in_order parent_type source_value path fields' ;;
      ret ((response_name, result) :: rest)
  end.

(** What an entry of the mapping settles to: a value that is no promise is
    itself; a promise is what it was fulfilled with, or what [out] says it
    will be fulfilled with. *)
Definition settled_value (s : state) (out : pid -> Value) (v : Value) : Value :=
  match v with
  | VPromise q =>
      match heap s !! q with
      | Some (Settled (Fulfilled w)) => w
      | _ => out q
      end
  | _ => v
  end.

(** "Skip keys whose result is the absent sentinel". *)
Definition collected (resolved : list (string * Value)) : dict :=
  filter (fun kv => is_undefined kv.2 = false) resolved.

(** The promise is settled with [o] when [build_response] is called, or it
    is pending and its settlement is the one thing scheduled. *)
Definition settles_to (s : state) (p : pid) (o : outcome) : Prop :=
  (heap s !! p = Some (Settled o) /\ queue s = []) \/
  (exists sl, heap s !! p = Some (Pending [] sl) /\ queue s = [TSettle p o]).

(** The data the envelope is built from. *)
Definition settled_data (o : outcome) : Value :=
  match o with Fulfilled v => v | Rejected _ => VNone end.

Definition recorded (o : outcome) : list Exception :=
  match o with Fulfilled _ => [] | Rejected e => [e] end.

(** A computation is append-only when the error list it leaves starts with
    the error list it found. *)
Definition append_only {A} (m : M A) : Prop :=
  forall s, errors s `prefix_of` errors (m s).2.

Definition base_append_only : Prop :=
  (forall op root, append_only (super_execute_operation op root)) /\
  (forall data, append_only (super_build_response data)) /\
  (forall rt fn info path v, append_only (super_complete_value rt fn info path v)) /\
  (forall e rt, append_only (handle_field_error e rt)) /\
  (forall pt src fn path, append_only (resolve_field pt src fn path)).

(** "Rejects with the first rejection encountered": the first value of the
    mapping, in its order, that is a rejected promise. *)
Fixpoint first_rejection (s : state) (vs : list Value) : option Exception :=
  match vs with
  | [] => None
  | VPromise q :: vs' =>
      match heap s !! q with
      | Some (Settled (Rejected e)) => Some e
      | _ => first_rejection s vs'
      end
  | _ :: vs' => first_rejection s vs'
  end.

(** What a promise is settled with when a continuation returns a value that
    is no promise, or raises. *)
Definition outcome_of (r : result Value) : outcome :=
  match r with Ok v => Fulfilled v | Raise e => Rejected e end.

(** The state in which the body of [execute_operation] runs when
    [build_response] waits for its promise: the trivial promise, the promise
    of the operation with [on_rejected] waiting for it, and the two promises
    of [build_response]. *)
Definition in_flight (s : state) : state :=
  MkState (errors s)
    (heap s ++ [Settled (Fulfilled VNone);
                Pending [RThen None (Some on_rejected) (2 + length (heap s))] [];
                Pending [RThen (Some on_resolve) None (3 + length (heap s))] [];
                Pending [] []])
    [] (world s).

End Reference.

(** ** The states [promise_for_dict] goes through

    What holds of the heap and the queue between the call of
    [promise_for_dict] on [value] in state [s] and the fulfilment of the
    promise it returns, when the environment fulfils the promise [q] with
    [out q]. *)

Module Settlement.
Section Settlement.
Context `{GraphQLCore}.
Variables (value : dict) (s : state) (out : pid -> Value) (order : list pid).

Local Abbreviation a := (length (heap s)).
Local Abbreviation t := (S (length (heap s))).
Local Abbreviation vs := (values value).
Local Abbreviation fin := (settled_value s out).
Local Abbreviation finals := (fin <$> vs).

(** A reaction of the promise [all] returned to the fulfilment of the i-th
    value, and such a reaction once it is scheduled. *)
Definition good_task (x : task) : Prop :=
  exists i q, vs !! i = Some (VPromise q) /\
              x = TReact (Fulfilled (fin (VPromise q))) (RAll i a).

Definition good_reaction (q : pid) (r : reaction) : Prop :=
  exists i, vs !! i = Some (VPromise q) /\ r = RAll i a.

(** The state while [Promise.all] goes through the values, [k] of them
    done. *)
Definition collecting (k : nat) (c : state) : Prop :=
  (exists rest, queue c = queue s ++ rest /\ Forall good_task rest /\
     forall j q w, j < k -> vs !! j = Some (VPromise q) ->
       heap s !! q = Some (Settled (Fulfilled w)) ->
       TReact (Fulfilled w) (RAll j a) ∈ rest) /\
  (exists slots, heap c !! a = Some (Pending [] slots) /\
     length slots = length vs /\
     forall j v, vs !! j = Some v ->
       slots !! j = Some (if is_thenable v then None
                          else if decide (j < k) then Some v else None)) /\
  (forall q, q ∈ order -> exists rs sl,
     heap c !! q = Some (Pending rs sl) /\ Forall (good_reaction q) rs /\
     forall j, j < k -> vs !! j = Some (VPromise q) -> RAll j a ∈ rs) /\
  (forall q w, heap s !! q = Some (Settled (Fulfilled w)) ->
     heap c !! q = Some (Settled (Fulfilled w))).

(** The continuation [handle_success] on the promise [all] returned, and the
    mapping it makes. *)
Definition the_reaction : reaction := RThen (Some (handle_success value)) None t.
Definition final_task : task := TReact (Fulfilled (VList finals)) the_reaction.
Definition final_dict : Value := VDict (zip (keys value) finals).

(** The environment fulfils [q]. *)
Definition settlement (q : pid) : task := TSettle q (Fulfilled (out q)).

End Settlement.
End Settlement.

(** ** What [promise_for_dict] schedules

    The reactions of the promise [all] returns that are scheduled during the
    call: one for every value that is a promise settled in [s], in the order
    of the values. *)

Module Rejection.
Section Rejection.
Context `{GraphQLCore}.
Variable s : state.

Fixpoint scheduled (i : nat) (vs : list Value) : list task :=
  match vs with
  | [] => []
  | VPromise q :: vs' =>
      match heap s !! q with
      | Some (Settled o) => TReact o (RAll i (length (heap s))) :: scheduled (S i) vs'
      | _ => scheduled (S i) vs'
      end
  | _ :: vs' => scheduled (S i) vs'
  end.

(** A reaction of the promise [all] returned. *)
Definition collects (x : task) : Prop :=
  exists o j, x = TReact o (RAll j (length (heap s))).

(** Such a reaction, to a fulfilment, for a slot before [r]. *)
Definition fills_before (r : nat) (x : task) : Prop :=
  exists v j, x = TReact (Fulfilled v) (RAll j (length (heap s))) /\ j < r.

(** The states of [s] and [c] agree on which promises of [s] are settled,
    and with what. *)
Definition same_settled (c : state) : Prop :=
  forall q o, q < length (heap s) ->
    heap s !! q = Some (Settled o) <-> heap c !! q = Some (Settled o).

End Rejection.
End Rejection.

(** ** A small schema to run the executor on *)

Module Demo.

Inductive exn :=
| Err (msg : string)
| Located (original : exn) (nodes : list string) (path : list path_key).

#[export] Instance core : GraphQLCore := {|
  FieldNode := string;
  OperationDefinitionNode := string;
  GraphQLOutputType := bool;          (* [true]: a non-null type *)
  GraphQLObjectType := string;
  GraphQLResolveInfo := unit;
  Exception := exn;
  World := list Path;                 (* where the resolvers were called *)
  name := fun t => t;
  default_is_awaitable := fun v =>
    match v with VAwaitable _ | VPromise _ => true | _ => false end;
  located_error := Located;
  TypeError := Err "TypeError";
  AttributeError := Err "AttributeError";
|}.

(** The envelope: the data and the errors recorded so far. *)
Definition envelope (data : Value) : M Value :=
  fun s => (Ok (VDict [("data", data);
                       ("errors", VInt (Z.of_nat (length (errors s))))]), s).

(** graphql-core's rule: a non-null field passes the error on, a nullable
    one records it. *)
Definition field_error (error : exn) (return_type : bool) : M unit :=
  if return_type then raise error
  else fun s => (Ok tt, set_errors (fun l => l ++ [error]) s).

Definition resolver (field : list string) : Value :=
  match field with
  | ["a"] => VInt 1
  | ["b"] => VPromise 0
  | ["c"] => VInt 3
  | ["d"] => VPromise 1
  | _ => VUndefined
  end.

#[export] Instance base : ExecutionContext := {|
  super_execute_operation := fun op root => ret (VDict [(op, root)]);
  super_build_response := envelope;
  super_complete_value := fun _ _ _ _ v => ret v;
  handle_field_error := field_error;
  resolve_field := fun _ _ nodes path =>
    fun s => (Ok (resolver nodes),
              MkState (errors s) (heap s) (queue s) (path :: world s));
|}.

(** A data loader: the field's promise is handed out and its settlement is
    scheduled. *)
Definition loader (field : list string) : M Value :=
  match field with
  | ["b"] => fun s => (Ok (VPromise 0), schedule [TSettle 0 (Fulfilled (VInt 2))] s)
  | ["f"] | ["n"] =>
      fun s => (Ok (VPromise 1), schedule [TSettle 1 (Rejected (Err "X"))] s)
  | _ => ret (resolver field)
  end.

(** Field [n] has a non-null type, the others are nullable. *)
Definition return_type_of (field : list string) : bool :=
  match field with ["n"] => true | _ => false end.

(** graphql-core's [resolve_field] completes what the resolver returns, and
    its [execute_operation] executes the fields of the operation; both go
    through the methods the subclass overrides. *)
Definition with_completion : ExecutionContext := {|
  super_execute_operation := super_execute_operation;
  super_build_response := envelope;
  super_complete_value := fun _ _ _ _ v => ret v;
  handle_field_error := field_error;
  resolve_field := fun _ _ nodes path =>
    result <- loader nodes ;;
    @complete_value core base (return_type_of nodes) nodes tt path result;
|}.

Definition selection (operation : string) : list (string * list string) :=
  (fun f => (f, [f])) <$> String.words operation.

Definition engine : ExecutionContext := {|
  super_execute_operation := fun operation root =>
    @execute_fields core with_completion "Query" root None (selection operation);
  super_build_response := envelope;
  super_complete_value := fun _ _ _ _ v => ret v;
  handle_field_error := field_error;
  resolve_field := @resolve_field core with_completion;
|}.

(** [execute] of graphql-core: the operation, then the response. *)
Definition execute (fuel : nat) (operation : string) (s : state)
  : option (result Value * state) :=
  match @execute_operation core operation VNone s with
  | (Ok data, s') => @build_response core engine fuel data s'
  | (Raise e, s') => Some (Raise e, s')
  end.

(** Two promises handed out by data loaders, not settled yet. *)
Definition s0 : state := MkState [] [Pending [] []; Pending [] []] [] [].

Definition abcd : list (string * list string) :=
  [("a", ["a"]); ("b", ["b"]); ("c", ["c"]); ("d", ["d"])].

Definition path_b : Path := MkPath None (KStr "b") (Some "Query").

(** The promise of field [b], rejected and fulfilled. *)
Definition s_rejected : state := MkState [] [Settled (Rejected (Err "X"))] [] [].
Definition s_fulfilled : state := MkState [] [Settled (Fulfilled (VInt 2))] [] [].

(** [d] is settled before [b]. *)
Definition s_d_then_b : state :=
  MkState [] [Pending [] []; Pending [] []]
    [TSettle 1 (Fulfilled (VInt 4)); TSettle 0 (Fulfilled (VInt 2))] [].

Definition abcd_results : dict :=
  [("a", VInt 1); ("b", VPromise 0); ("c", VInt 3); ("d", VPromise 1)].

(** The state after the four fields were resolved. *)
Definition s_abcd : state :=
  MkState [] [Pending [] []; Pending [] []] []
    ([MkPath None (KStr "d") (Some "Query");
      MkPath None (KStr "c") (Some "Query");
      MkPath None (KStr "b") (Some "Query");
      MkPath None (KStr "a") (Some "Query")] : list Path).

Definition axc : list (string * list string) :=
  [("a", ["a"]); ("x", ["x"]); ("c", ["c"])].

(** [d] settles first, [b] second; the mapping still reads a, b, c, d. *)
Definition settles_as (q : pid) : Value :=
  match q with 0 => VInt 2 | _ => VInt 4 end.

(** graphql-core where it fails: the resolver of [n], a field of a non-null
    type, raises, and the handler passes the located error on; a non-null
    type takes no null; the envelope builder refuses a response without
    data. *)
Definition refusing : ExecutionContext := {|
  super_execute_operation := fun op root => ret (VDict [(op, root)]);
  super_build_response := fun data =>
    match data with VNone => raise (Err "no data") | _ => envelope data end;
  super_complete_value := fun return_type _ _ _ v =>
    match return_type, v with
    | true, VNone => raise (Err "null")
    | _, _ => ret v
    end;
  handle_field_error := field_error;
  resolve_field := fun parent source nodes path =>
    match nodes with
    | ["n"] =>
        _ <- field_error (Located (Err "X") nodes (as_list path)) (return_type_of nodes) ;;
        ret VNone
    | _ => @resolve_field core base parent source nodes path
    end;
|}.

(** graphql-core with an operation that cannot be executed. *)
Definition aborting : ExecutionContext := {|
  super_execute_operation := fun op _ => raise (Err op);
  super_build_response := envelope;
  super_complete_value := fun _ _ _ _ v => ret v;
  handle_field_error := field_error;
  resolve_field := @resolve_field core base;
|}.

(** graphql-core's envelope builder puts the errors in order before it
    hands them out (by location, path and message; here by message). *)
Fixpoint message (e : exn) : string :=
  match e with
  | Err msg => msg
  | Located original _ _ => message original
  end.

Fixpoint insert_error (e : exn) (l : list exn) : list exn :=
  match l with
  | [] => [e]
  | e' :: l' =>
      if String.leb (message e) (message e') then e :: l else e' :: insert_error e l'
  end.

Definition sort_errors (l : list exn) : list exn := foldr insert_error [] l.

Definition sorting : ExecutionContext := {|
  super_execute_operation := fun op root => ret (VDict [(op, root)]);
  super_build_response := fun data s => envelope data (set_errors sort_errors s);
  super_complete_value := fun _ _ _ _ v => ret v;
  handle_field_error := field_error;
  resolve_field := @resolve_field core base;
|}.

Definition anc : list (string * list string) :=
  [("a", ["a"]); ("n", ["n"]); ("c", ["c"])].

(** No promise yet. *)
Definition s_empty : state := MkState [] [] [] [].

(** The promise of field [b] is pending; its rejection comes next. *)
Definition s_b_next : state :=
  MkState [] [Pending [] []] [TSettle 0 (Rejected (Err "X"))] [].

(** The promise of field [b], fulfilled with null. *)
Definition s_null : state := MkState [] [Settled (Fulfilled VNone)] [] [].

(** The error [b] is recorded; the data is a promise rejected with [a]. *)
Definition s_b_recorded : state :=
  MkState [Err "b"] [Settled (Rejected (Err "a"))] [] [].

(** The promise of [b] is fulfilled, the promise of [d] is rejected. *)
Definition s_d_rejected : state :=
  MkState [] [Settled (Fulfilled (VInt 2)); Settled (Rejected (Err "X"))] [] [].

End Demo.

(** Distinctness of the elements of a list given in full. *)
Ltac distinct :=
  repeat (constructor; [rewrite ?elem_of_cons, elem_of_nil; intuition discriminate|]);
  constructor.

(** ** Properties *)

Section Properties.
Context `{GraphQLCore} `{!ExecutionContext}.

Implicit Types (s : state) (v : Value) (p t : pid) (o : outcome) (d : dict).

Lemma is_thenable_spec v : is_thenable v = true <-> exists p, v = VPromise p.
Proof.
  split.
  - destruct v; simpl; try discriminate. eauto.
  - intros [p ->]. reflexivity.
Qed.

(** C7: a value that is one of the engine's promises is never awaitable,
    whatever graphql-core's own detector says about it. *)
Theorem is_awaitable_false_on_promises v :
  is_thenable v = true -> is_awaitable v = false.
Proof. unfold is_awaitable. intros ->. reflexivity. Qed.

(** C10: away from the promises [is_awaitable] is graphql-core's detector;
    put together, a value is awaitable exactly when it is no promise and the
    default detector accepts it. *)
Theorem is_awaitable_default_elsewhere v :
  (is_thenable v = false -> is_awaitable v = default_is_awaitable v) /\
  (is_awaitable v = true <-> is_thenable v = false /\ default_is_awaitable v = true).
Proof.
  unfold is_awaitable. destruct (is_thenable v); split; try tauto.
  - discriminate.
  - intuition discriminate.
Qed.

(** *** Dictionaries *)

Lemma dict_set_fresh k v d : k ∉ keys d -> dict_set k v d = d ++ [(k, v)].
Proof.
  unfold keys. induction d as [|[k' v'] d IH]; simpl; intros Hk; [done|].
  apply not_elem_of_cons in Hk as [Hne Hk].
  destruct (decide (k = k')); [done|]. by rewrite IH.
Qed.

Lemma foldl_dict_set_fresh (pairs : list (string * Value)) d :
  NoDup (keys d ++ pairs.*1) ->
  foldl (fun d kv => dict_set kv.1 kv.2 d) d pairs = d ++ pairs.
Proof.
  revert d. induction pairs as [|[k v] pairs IH]; intros d Hnd; simpl.
  - by rewrite app_nil_r.
  - simpl in Hnd. apply NoDup_app in Hnd as (Hd & Hdis & Hp).
    apply NoDup_cons in Hp as [Hk Hp].
    rewrite dict_set_fresh; [|intros Hin; apply (Hdis k Hin); left].
    rewrite IH; [by rewrite <- app_assoc|].
    unfold keys. rewrite fmap_app. simpl. rewrite <- app_assoc. simpl.
    apply NoDup_app. split; [done|]. split.
    + intros x Hx [->|Hin]%elem_of_cons; [|by apply (Hdis x Hx); right].
      apply (Hdis k Hx). left.
    + by apply NoDup_cons.
Qed.

Lemma NoDup_keys_functional {A} (l : list (string * A)) k (x y : A) :
  NoDup l.*1 -> (k, x) ∈ l -> (k, y) ∈ l -> x = y.
Proof.
  induction l as [|[k' z] l IH]; simpl; intros Hnd Hx Hy.
  - by apply elem_of_nil in Hx.
  - apply NoDup_cons in Hnd as [Hk Hnd].
    apply elem_of_cons in Hx as [Hx|Hx]; apply elem_of_cons in Hy as [Hy|Hy].
    + congruence.
    + injection Hx as -> ->. destruct Hk. apply list_elem_of_fmap. by exists (k', y).
    + injection Hy as -> ->. destruct Hk. apply list_elem_of_fmap. by exists (k', x).
    + eauto.
Qed.

Lemma dict_of_NoDup (pairs : list (string * Value)) :
  NoDup pairs.*1 -> dict_of pairs = pairs.
Proof. intros Hnd. unfold dict_of. by rewrite foldl_dict_set_fresh. Qed.

(** *** The selection-set loop *)

Lemma resolve_in_order_keys pt src path (fields : list (string * list FieldNode)) s rs s' :
  resolve_in_order pt src path fields s = (Ok rs, s') -> rs.*1 = fields.*1.
Proof.
  revert s rs s'. induction fields as [|[k fn] fields IH]; simpl; intros s rs s'.
  - unfold ret. by intros [= <- <-].
  - unfold bind at 1.
    destruct (resolve_field _ _ _ _ s) as [[r|e] s1]; [|done].
    unfold bind at 1.
    destruct (resolve_in_order _ _ _ fields s1) as [[rs'|e] s2] eqn:Hr; [|done].
    unfold ret. intros [= <- <-]. simpl. f_equal. eauto.
Qed.

Lemma collected_keys_subseteq (rs : list (string * Value)) :
  keys (collected rs) ⊆ rs.*1.
Proof.
  unfold keys, collected. intros k [[k' v] [-> Hin]]%list_elem_of_fmap.
  apply list_elem_of_filter in Hin as [_ Hin].
  apply list_elem_of_fmap. by exists (k', v).
Qed.

Lemma execute_fields_loop_spec pt src path (fields : list (string * list FieldNode))
    (cp : bool) (results : dict) s :
  NoDup (keys results ++ fields.*1) ->
  execute_fields_loop pt src path fields cp results s =
  match resolve_in_order pt src path fields s with
  | (Ok rs, s') =>
      (Ok (existsb is_thenable (values (collected rs)) || cp, results ++ collected rs), s')
  | (Raise e, s') => (Raise e, s')
  end.
Proof.
  revert cp results s.
  induction fields as [|[k fn] fields IH]; intros cp results s Hnd; simpl.
  - unfold ret. by rewrite app_nil_r.
  - unfold bind.
    destruct (resolve_field _ _ _ _ s) as [[r|e] s1]; [|done].
    assert (Hk : k ∉ keys results).
    { apply NoDup_app in Hnd as (_ & Hdis & _). intros Hin.
      apply (Hdis k Hin). left. }
    assert (Hnd' : NoDup (keys results ++ fields.*1)).
    { simpl in Hnd. apply NoDup_app in Hnd as (? & Hdis & [? ?]%NoDup_cons).
      apply NoDup_app. split_and!; [done| |done].
      intros x Hx Hin. apply (Hdis x Hx). by right. }
    destruct (is_undefined r) eqn:Hu.
    + rewrite IH by done.
      destruct (resolve_in_order _ _ _ fields s1) as [[rs|e] s2]; [|done].
      unfold ret, collected. rewrite filter_cons_False; [done|].
      simpl. by rewrite Hu.
    + rewrite IH.
      * destruct (resolve_in_order _ _ _ fields s1) as [[rs|e] s2]; [|done].
        unfold ret, collected. rewrite filter_cons_True by done.
        rewrite dict_set_fresh by done. rewrite <- app_assoc. simpl.
        do 2 f_equal. fold (collected rs).
        destruct (is_thenable r), (existsb is_thenable (values (collected rs))), cp; done.
      * rewrite dict_set_fresh by done. unfold keys. rewrite fmap_app.
        rewrite <- app_assoc. exact Hnd.
Qed.


(** *** Allocation *)

Lemma settle_length p o s : length (heap (settle p o s)) = length (heap s).
Proof.
  unfold settle. destruct (heap s !! p) as [[rs sl|o']|]; simpl; [|done..].
  by rewrite length_insert.
Qed.

Lemma subscribe_length p r s : length (heap (subscribe p r s)) = length (heap s).
Proof.
  unfold subscribe. destruct (heap s !! p) as [[rs sl|o']|]; simpl; [|done..].
  by rewrite length_insert.
Qed.

Lemma set_slot_length t i v s : length (heap (set_slot t i v s)) = length (heap s).
Proof.
  unfold set_slot. destruct (heap s !! t) as [[rs sl|o']|]; simpl; [|done..].
  by rewrite length_insert.
Qed.

Lemma all_check_length t s : length (heap (all_check t s)) = length (heap s).
Proof.
  unfold all_check. destruct (heap s !! t) as [[rs sl|o']|]; [|done..].
  destruct (mapM id sl); [apply settle_length|done].
Qed.

Lemma all_collect_length t i vs s :
  length (heap (all_collect t i vs s)) = length (heap s).
Proof.
  revert i s. induction vs as [|v vs IH]; intros i s; simpl; [done|].
  rewrite IH. destruct v; auto using set_slot_length, subscribe_length.
Qed.

Lemma Promise_then_returns p f g s :
  Promise_then p f g s =
  (Ok (length (heap s)),
   subscribe p (RThen f g (length (heap s)))
     (set_heap (fun h => h ++ [Pending [] []]) s)).
Proof. reflexivity. Qed.

Lemma Promise_all_returns vs s :
  Promise_all vs s =
  (Ok (length (heap s)),
   all_check (length (heap s))
     (all_collect (length (heap s)) 0 vs
        (set_heap (fun h => h ++ [Pending [] (replicate (length vs) None)]) s))).
Proof. reflexivity. Qed.

(** [promise_for_dict] always returns, and what it returns is the second of
    the two promises it allocates. *)
Lemma promise_for_dict_returns (value : dict) s :
  exists s', promise_for_dict value s = (Ok (S (length (heap s))), s')
             /\ length (heap s') = S (S (length (heap s))).
Proof.
  unfold promise_for_dict, bind. rewrite Promise_all_returns, Promise_then_returns.
  rewrite all_check_length, all_collect_length. simpl.
  rewrite length_app. simpl. rewrite Nat.add_1_r.
  eexists. split; [reflexivity|].
  rewrite subscribe_length. simpl.
  rewrite length_app, all_check_length, all_collect_length. simpl.
  rewrite length_app. simpl. lia.
Qed.

(** C8: [execute_fields] resolves the fields one after the other in the
    order of the mapping, each once and each at the path made of the parent
    path, the response key and the parent type's name: what it returns, and
    the state it leaves, are those of [resolve_in_order] followed by the
    choice between the plain mapping and its promise; a call that raises
    ends it with that exception.  The results mapping, built by the loop,
    holds the results that are not [Undefined], in the same order, and has
    no entry for a key whose result is [Undefined]. *)
Theorem execute_fields_resolves_each_key_once pt src path
    (fields : list (string * list FieldNode)) s :
  NoDup fields.*1 ->
  match resolve_in_order pt src path fields s with
  | (Ok rs, s1) =>
      rs.*1 = fields.*1 /\
      execute_fields_loop pt src path fields false [] s =
        (Ok (existsb is_thenable (values (collected rs)), collected rs), s1) /\
      execute_fields pt src path fields s =
        (if existsb is_thenable (values (collected rs))
         then p <- promise_for_dict (collected rs) ;; ret (VPromise p)
         else ret (VDict (collected rs))) s1 /\
      (forall k, (k, VUndefined) ∈ rs -> k ∉ keys (collected rs)) /\
      (forall k v, v <> VUndefined -> (k, v) ∈ rs -> (k, v) ∈ collected rs)
  | (Raise e, s1) =>
      execute_fields_loop pt src path fields false [] s = (Raise e, s1) /\
      execute_fields pt src path fields s = (Raise e, s1)
  end.
Proof.
  intros Hnd.
  assert (Hloop := execute_fields_loop_spec pt src path fields false [] s Hnd).
  destruct (resolve_in_order pt src path fields s) as [[rs|e] s1] eqn:Hr.
  - rewrite orb_false_r in Hloop. simpl in Hloop.
    pose proof (resolve_in_order_keys _ _ _ _ _ _ _ Hr) as Hkeys.
    split_and!; [done|done| |..].
    + unfold execute_fields, bind. rewrite Hloop.
      by destruct (existsb is_thenable (values (collected rs))).
    + intros k Hin [[k' v] [Hk Hin']]%list_elem_of_fmap. simpl in Hk. subst k'.
      apply list_elem_of_filter in Hin' as [Hv Hin'].
      rewrite <- Hkeys in Hnd.
      pose proof (NoDup_keys_functional _ _ _ _ Hnd Hin Hin') as <-. done.
    + intros k v Hv Hin. apply list_elem_of_filter. split; [|done].
      destruct v; done.
  - split; [done|]. unfold execute_fields, bind. by rewrite Hloop.
Qed.

(** C1: when no collected result is a promise, [execute_fields] returns the
    plain mapping and leaves the state as the field resolutions left it: no
    promise is allocated and nothing is scheduled.  When one is, the whole
    mapping goes through [promise_for_dict] and the one promise that comes
    back is returned. *)
Theorem execute_fields_plain_or_deferred pt src path
    (fields : list (string * list FieldNode)) s rs s1 :
  NoDup fields.*1 ->
  resolve_in_order pt src path fields s = (Ok rs, s1) ->
  if existsb is_thenable (values (collected rs))
  then exists t s2,
         promise_for_dict (collected rs) s1 = (Ok t, s2) /\
         execute_fields pt src path fields s = (Ok (VPromise t), s2)
  else execute_fields pt src path fields s = (Ok (VDict (collected rs)), s1).
Proof.
  intros Hnd Hr.
  assert (Hloop := execute_fields_loop_spec pt src path fields false [] s Hnd).
  rewrite Hr, orb_false_r in Hloop. simpl in Hloop.
  unfold execute_fields, bind. rewrite Hloop.
  destruct (existsb is_thenable (values (collected rs))); [|done].
  destruct (promise_for_dict_returns (collected rs) s1) as (s2 & Hp & _).
  exists (S (length (heap s1))), s2. split; [done|].
  by rewrite Hp.
Qed.


(** *** Subscribing to a promise *)

Lemma subscribe_settled p r o s :
  heap s !! p = Some (Settled o) -> subscribe p r s = schedule [TReact o r] s.
Proof. unfold subscribe. by intros ->. Qed.

Lemma subscribe_pending p r rs sl s :
  heap s !! p = Some (Pending rs sl) ->
  subscribe p r s = set_heap (fun h => <[p := Pending (rs ++ [r]) sl]> h) s.
Proof. unfold subscribe. by intros ->. Qed.

Lemma settle_pending p o rs sl s :
  heap s !! p = Some (Pending rs sl) ->
  settle p o s = schedule (TReact o <$> rs) (set_heap (fun h => <[p := Settled o]> h) s).
Proof. unfold settle. by intros ->. Qed.

Lemma settle_settled p o o' s :
  heap s !! p = Some (Settled o') -> settle p o s = s.
Proof. unfold settle. by intros ->. Qed.

Lemma lookup_alloc (h : list pstate) st : (h ++ [st]) !! length h = Some st.
Proof. by apply list_lookup_middle. Qed.

Lemma lookup_alloc_old (h : list pstate) st p x :
  h !! p = Some x -> (h ++ [st]) !! p = Some x.
Proof. apply lookup_app_l_Some. Qed.

Lemma step_cons task q s :
  queue s = task :: q -> step s = Some (run_task task (set_queue (fun _ => q) s)).
Proof. unfold step. by intros ->. Qed.

(** *** [execute_operation] *)

Lemma execute_operation_state (operation : OperationDefinitionNode)
    (root_value : Value) s :
  execute_operation operation root_value s =
    (Ok (VPromise (S (length (heap s)))),
     MkState (errors s)
       (heap s ++ [Settled (Fulfilled VNone); Pending [] []])
       (queue s ++ [TReact (Fulfilled VNone)
                      (RThen (Some (promise_executor operation root_value)) None
                         (S (length (heap s))))])
       (world s)).
Proof.
  unfold execute_operation, bind. simpl.
  rewrite length_app, Nat.add_1_r. unfold ret. simpl. f_equal.
  rewrite (subscribe_settled _ _ (Fulfilled VNone)).
  - unfold schedule, set_queue, set_heap. simpl. by rewrite <- app_assoc.
  - simpl. apply lookup_alloc_old, lookup_alloc.
Qed.

(** C6: [execute_operation] returns a promise whatever the operation and the
    root value are.  It allocates a promise fulfilled with [None] and chains
    [promise_executor] onto it: the promise returned is pending, the base
    class's execution has not run (the errors and the world are untouched) and
    is scheduled as the reaction to the trivial promise; running it is running
    [super().execute_operation(operation, root_value)]. *)
Theorem execute_operation_returns_promise (operation : OperationDefinitionNode)
    (root_value : Value) s :
  execute_operation operation root_value s =
    (Ok (VPromise (S (length (heap s)))),
     MkState (errors s)
       (heap s ++ [Settled (Fulfilled VNone); Pending [] []])
       (queue s ++ [TReact (Fulfilled VNone)
                      (RThen (Some (promise_executor operation root_value)) None
                         (S (length (heap s))))])
       (world s)) /\
  is_thenable (VPromise (S (length (heap s)))) = true /\
  forall s',
    run_task (TReact (Fulfilled VNone)
                (RThen (Some (promise_executor operation root_value)) None
                   (S (length (heap s))))) s' =
    finish (S (length (heap s))) (super_execute_operation operation root_value) s'.
Proof. split_and!; [apply execute_operation_state|done..]. Qed.

(** *** [complete_value] *)

(** C5: a result that is no promise goes to the base class's
    [complete_value] unchanged.  For a promise, [complete_value] returns a new
    promise and registers [handle_resolve] on the result; when the result is
    fulfilled with [v], the reaction calls [complete_value] itself (the
    overriding method, not the base one) on [v] with the same return type,
    field nodes, info and path, and resolves the new promise with what that
    call gives.  For a promise that is fulfilled already, one turn of the
    loop does it. *)
Theorem complete_value_recurses_on_fulfilment (return_type : GraphQLOutputType)
    (field_nodes : list FieldNode) (info : GraphQLResolveInfo) (path : Path)
    (result : Value) s :
  (is_thenable result = false ->
   complete_value return_type field_nodes info path result s =
   super_complete_value return_type field_nodes info path result s) /\
  (forall p, result = VPromise p ->
     complete_value return_type field_nodes info path result s =
       (Ok (VPromise (length (heap s))),
        subscribe p
          (RThen (Some (handle_resolve return_type field_nodes info path))
             (Some (handle_error return_type field_nodes path)) (length (heap s)))
          (set_heap (fun h => h ++ [Pending [] []]) s)) /\
     (forall v s',
        run_reaction (Fulfilled v)
          (RThen (Some (handle_resolve return_type field_nodes info path))
             (Some (handle_error return_type field_nodes path)) (length (heap s))) s' =
        finish (length (heap s))
          (complete_value return_type field_nodes info path v) s') /\
     (forall v,
        heap s !! p = Some (Settled (Fulfilled v)) -> queue s = [] ->
        run_queue 1 (complete_value return_type field_nodes info path result s).2 =
        finish (length (heap s))
          (complete_value return_type field_nodes info path v)
          (set_heap (fun h => h ++ [Pending [] []]) s))).
Proof.
  split.
  - unfold complete_value. by intros ->.
  - intros p ->. split_and!; [done..|].
    intros v Hp Hq. simpl.
    rewrite (subscribe_settled _ _ (Fulfilled v)) by by apply lookup_alloc_old.
    unfold step, schedule, set_queue, set_heap. simpl. rewrite Hq. simpl.
    reflexivity.
Qed.


(** What the two continuations of [complete_value] do, in any state. *)
Lemma handle_resolve_reaction rt fn info path t v s :
  run_reaction (Fulfilled v)
    (RThen (Some (handle_resolve rt fn info path)) (Some (handle_error rt fn path)) t) s =
  finish t (complete_value rt fn info path v) s.
Proof. reflexivity. Qed.

Lemma handle_error_reaction rt fn info path t e s :
  run_reaction (Rejected e)
    (RThen (Some (handle_resolve rt fn info path)) (Some (handle_error rt fn path)) t) s =
  match handle_field_error (located_error e fn (as_list path)) rt s with
  | (Ok _, s') => settle t (Fulfilled VNone) s'
  | (Raise e', s') => settle t (Rejected e') s'
  end.
Proof.
  simpl. unfold finish, bind.
  by destruct (handle_field_error _ _ s) as [[[]|e'] s'].
Qed.

(** C4, as amended: when the promise a field resolved to is rejected with
    [e], the reaction builds [located_error(e, field_nodes, path.as_list())]
    and passes it to [handle_field_error] together with the return type.  If
    the handler returns, the promise [complete_value] gave out is fulfilled
    with [None]; if the handler raises, that promise is rejected with what
    the handler raised. *)
Theorem complete_value_rejection_goes_to_handler (return_type : GraphQLOutputType)
    (field_nodes : list FieldNode) (info : GraphQLResolveInfo) (path : Path)
    p (e : Exception) s (r : result unit) s2 :
  heap s !! p = Some (Settled (Rejected e)) ->
  queue s = [] ->
  handle_field_error (located_error e field_nodes (as_list path)) return_type
    (set_heap (fun h => h ++ [Pending [] []]) s) = (r, s2) ->
  heap s2 !! length (heap s) = Some (Pending [] []) ->
  (complete_value return_type field_nodes info path (VPromise p) s).1 =
    Ok (VPromise (length (heap s))) /\
  heap (run_queue 1 (complete_value return_type field_nodes info path (VPromise p) s).2)
    !! length (heap s) =
  Some (Settled match r with
                | Ok _ => Fulfilled VNone
                | Raise e' => Rejected e'
                end).
Proof.
  intros Hp Hq Hh Ht. split; [done|]. simpl.
  rewrite (subscribe_settled _ _ (Rejected e)) by by apply lookup_alloc_old.
  unfold step, schedule, set_queue. simpl. rewrite Hq. simpl.
  unfold finish, bind.
  replace (MkState (errors s) (heap s ++ [Pending [] []]) [] (world s))
    with (set_heap (fun h => h ++ [Pending [] []]) s)
    by (unfold set_heap; by rewrite Hq).
  rewrite Hh. pose proof (lookup_lt_Some _ _ _ Ht) as Hlt.
  destruct r as [[]|e']; simpl; rewrite (settle_pending _ _ _ _ _ Ht); simpl;
    by rewrite list_lookup_insert_eq.
Qed.

(** *** [build_response] *)

Lemma on_rejected_reaction e t s :
  run_reaction (Rejected e) (RThen None (Some on_rejected) t) s =
  settle t (Fulfilled VNone) (set_errors (fun l => l ++ [e]) s).
Proof. reflexivity. Qed.

Lemma on_rejected_passes_fulfilment v t s :
  run_reaction (Fulfilled v) (RThen None (Some on_rejected) t) s =
  settle t (Fulfilled v) s.
Proof. reflexivity. Qed.

Lemma on_resolve_reaction v t s :
  run_reaction (Fulfilled v) (RThen (Some on_resolve) None t) s =
  finish t (super_build_response v) s.
Proof. reflexivity. Qed.

Lemma Promise_get_settled fuel p v s :
  heap s !! p = Some (Settled (Fulfilled v)) -> Promise_get fuel p s = Some (Ok v, s).
Proof. intros Hp. destruct fuel; simpl; by rewrite Hp. Qed.


Lemma build_response_registers p s :
  (p1 <- Promise_catch p on_rejected ;; Promise_then p1 (Some on_resolve) None) s =
  (Ok (S (length (heap s))),
   subscribe (length (heap s)) (RThen (Some on_resolve) None (S (length (heap s))))
     (set_heap (fun h => h ++ [Pending [] []])
        (subscribe p (RThen None (Some on_rejected) (length (heap s)))
           (set_heap (fun h => h ++ [Pending [] []]) s)))).
Proof.
  unfold bind, Promise_catch, Promise_then, bind, alloc. simpl.
  rewrite subscribe_length. simpl. rewrite length_app. simpl.
  by rewrite Nat.add_1_r.
Qed.


Lemma lookup_alloc2_fst (h : list pstate) a b : (h ++ [a; b]) !! length h = Some a.
Proof. by apply list_lookup_middle. Qed.

Lemma lookup_alloc2_snd (h : list pstate) a b : (h ++ [a; b]) !! S (length h) = Some b.
Proof.
  replace (h ++ [a; b]) with ((h ++ [a]) ++ [b]) by by rewrite <- app_assoc.
  apply list_lookup_middle. rewrite length_app. simpl. lia.
Qed.

Lemma insert_alloc2_fst (h : list pstate) a b x :
  <[length h := x]> (h ++ [a; b]) = h ++ [x; b].
Proof. rewrite insert_app_r_alt by lia. by rewrite Nat.sub_diag. Qed.

Lemma insert_alloc2_snd (h : list pstate) a b x :
  <[S (length h) := x]> (h ++ [a; b]) = h ++ [a; x].
Proof.
  rewrite insert_app_r_alt by lia.
  by replace (S (length h) - length h) with 1 by lia.
Qed.

Lemma Promise_get_step n p rs sl s s' :
  heap s !! p = Some (Pending rs sl) -> step s = Some s' ->
  Promise_get (S n) p s = Promise_get n p s'.
Proof. intros Hp Hs. simpl. by rewrite Hp, Hs. Qed.

(** Once the reactions are registered, [build_response] waits for the second
    of its two promises, from the state in which the reaction to the given
    promise is the next thing to run. *)
Lemma build_response_waits n p o s :
  settles_to s p o ->
  exists m, 2 <= m /\
    build_response (S (S (S n))) (VPromise p) s =
    Promise_get m (S (length (heap s)))
      (MkState (errors s)
         (<[p := Settled o]> (heap s)
            ++ [Pending [RThen (Some on_resolve) None (S (length (heap s)))] [];
                Pending [] []])
         [TReact o (RThen None (Some on_rejected) (length (heap s)))] (world s)).
Proof.
  intros Hsettles.
  unfold build_response. cbn [is_thenable]. rewrite build_response_registers.
  destruct Hsettles as [[Hp Hq]|(sl & Hp & Hq)].
  - exists (S (S (S n))). split; [lia|].
    rewrite (subscribe_settled p _ o) by by apply lookup_alloc_old.
    replace (<[p := Settled o]> (heap s)) with (heap s)
      by (symmetry; by apply list_insert_id).
    erewrite subscribe_pending; last first.
    { simpl. rewrite <- app_assoc. apply lookup_alloc2_fst. }
    unfold schedule, set_queue, set_heap. simpl. rewrite Hq. simpl.
    rewrite <- app_assoc. simpl. by rewrite insert_alloc2_fst.
  - exists (S (S n)). split; [lia|].
    pose proof (lookup_lt_Some _ _ _ Hp) as Hlt.
    set (R1 := RThen None (Some on_rejected) (length (heap s))).
    set (R2 := RThen (Some on_resolve) None (S (length (heap s)))).
    set (hh := <[p := Pending [R1] sl]> (heap s)).
    assert (Hhh : length hh = length (heap s)) by apply length_insert.
    erewrite (subscribe_pending p) by by apply lookup_alloc_old.
    erewrite subscribe_pending; last first.
    { simpl. rewrite (insert_app_l (heap s) _ p) by done. fold hh.
      rewrite <- app_assoc. rewrite <- Hhh. apply lookup_alloc2_fst. }
    unfold set_heap. cbn [errors heap queue world app].
    rewrite (insert_app_l (heap s) _ p) by done. fold hh. rewrite <- app_assoc.
    cbn [app].
    assert (Hins : forall x a b,
      <[length (heap s) := x]> (<[p:=Pending [R1] sl]> (heap s) ++ [a; b])
      = hh ++ [x; b]).
    { intros x a b. rewrite <- Hhh. apply insert_alloc2_fst. }
    rewrite Hins.
    erewrite Promise_get_step; last first.
    + unfold step. cbn [queue]. rewrite Hq. reflexivity.
    + cbn [heap]. rewrite <- Hhh. apply lookup_alloc2_snd.
    + f_equal. unfold set_queue. cbn [run_task errors heap queue world].
      erewrite settle_pending; last first.
      { cbn [heap]. apply lookup_app_l_Some. unfold hh.
        by apply list_lookup_insert_eq. }
      unfold schedule, set_queue, set_heap. simpl. f_equal.
      rewrite insert_app_l by lia. unfold hh. by rewrite list_insert_insert_eq.
Qed.

Lemma Promise_get_rejected fuel p (e : Exception) s :
  heap s !! p = Some (Settled (Rejected e)) -> Promise_get fuel p s = Some (Raise e, s).
Proof. intros Hp. destruct fuel; simpl; by rewrite Hp. Qed.

(** The first of the two reactions. *)
Lemma on_rejected_runs o (h : list pstate) (errs : list Exception) (w : World) r2 :
  run_reaction o (RThen None (Some on_rejected) (length h))
    (MkState errs (h ++ [Pending [r2] []; Pending [] []]) [] w) =
  MkState (errs ++ recorded o)
    (h ++ [Settled (Fulfilled (settled_data o)); Pending [] []])
    [TReact (Fulfilled (settled_data o)) r2] w.
Proof.
  destruct o as [v|e].
  - rewrite on_rejected_passes_fulfilment.
    erewrite settle_pending by apply lookup_alloc2_fst.
    unfold schedule, set_queue, set_heap. simpl.
    by rewrite insert_alloc2_fst, app_nil_r.
  - rewrite on_rejected_reaction.
    erewrite settle_pending by apply lookup_alloc2_fst.
    unfold schedule, set_queue, set_heap, set_errors. simpl.
    by rewrite insert_alloc2_fst.
Qed.

(** The two reactions, one after the other: the outcome goes through
    [on_rejected], then the envelope builder runs in [on_resolve], and what it
    returns or raises settles the promise [get] waits for. *)
Lemma build_response_reacts n o (h : list pstate) (errs : list Exception) (w : World)
    (res : result Value) s' :
  super_build_response (settled_data o)
    (MkState (errs ++ recorded o)
       (h ++ [Settled (Fulfilled (settled_data o)); Pending [] []]) [] w) = (res, s') ->
  (forall r, res = Ok r -> is_thenable r = false) ->
  heap s' = h ++ [Settled (Fulfilled (settled_data o)); Pending [] []] ->
  Promise_get (S (S n)) (S (length h))
    (MkState errs
       (h ++ [Pending [RThen (Some on_resolve) None (S (length h))] []; Pending [] []])
       [TReact o (RThen None (Some on_rejected) (length h))] w) =
  Some (res, settle (S (length h)) (outcome_of res) s').
Proof.
  intros Hr Hplain Hheap.
  erewrite Promise_get_step; [|apply lookup_alloc2_snd|reflexivity].
  unfold set_queue. cbn [queue run_task errors heap world].
  rewrite on_rejected_runs.
  erewrite Promise_get_step; [|apply lookup_alloc2_snd|reflexivity].
  unfold set_queue. cbn [queue run_task errors heap world].
  rewrite on_resolve_reaction. unfold finish. rewrite Hr.
  assert (Hlookup : forall o',
    heap (settle (S (length h)) o' s') !! S (length h) = Some (Settled o')).
  { intros o'. erewrite settle_pending by (rewrite Hheap; apply lookup_alloc2_snd).
    simpl. rewrite Hheap. apply list_lookup_insert_eq.
    rewrite length_app. simpl. lia. }
  destruct res as [r|e]; simpl.
  - assert (Hres : resolve_with (S (length h)) r s' =
                   settle (S (length h)) (Fulfilled r) s').
    { specialize (Hplain r eq_refl). by destruct r. }
    rewrite Hres. apply Promise_get_settled, Hlookup.
  - apply Promise_get_rejected, Hlookup.
Qed.



(** *** The error list *)

Lemma errors_settle p o s : errors (settle p o s) = errors s.
Proof. unfold settle. by destruct (heap s !! p) as [[]|]. Qed.

Lemma errors_subscribe p r s : errors (subscribe p r s) = errors s.
Proof. unfold subscribe. by destruct (heap s !! p) as [[]|]. Qed.

Lemma errors_set_slot t i v s : errors (set_slot t i v s) = errors s.
Proof. unfold set_slot. by destruct (heap s !! t) as [[]|]. Qed.

Lemma errors_all_check t s : errors (all_check t s) = errors s.
Proof.
  unfold all_check. destruct (heap s !! t) as [[rs sl|]|]; [|done..].
  destruct (mapM id sl); [apply errors_settle|done].
Qed.

Lemma errors_all_collect t i vs s : errors (all_collect t i vs s) = errors s.
Proof.
  revert i s. induction vs as [|v vs IH]; intros i s; simpl; [done|].
  rewrite IH. destruct v; auto using errors_set_slot, errors_subscribe.
Qed.

Lemma errors_resolve_with t v s : errors (resolve_with t v s) = errors s.
Proof. destruct v; simpl; auto using errors_settle, errors_subscribe. Qed.

Lemma errors_Promise_then p f g s : errors (Promise_then p f g s).2 = errors s.
Proof. rewrite Promise_then_returns. simpl. by rewrite errors_subscribe. Qed.

Lemma errors_Promise_all vs s : errors (Promise_all vs s).2 = errors s.
Proof.
  rewrite Promise_all_returns. simpl.
  by rewrite errors_all_check, errors_all_collect.
Qed.

Lemma errors_promise_for_dict (value : dict) s :
  errors (promise_for_dict value s).2 = errors s.
Proof.
  unfold promise_for_dict, bind. rewrite Promise_all_returns.
  by rewrite errors_Promise_then, errors_all_check, errors_all_collect.
Qed.

Lemma append_only_bind {A B} (m : M A) (k : A -> M B) :
  append_only m -> (forall a, append_only (k a)) -> append_only (bind m k).
Proof.
  intros Hm Hk s. unfold bind. specialize (Hm s).
  destruct (m s) as [[a|e] s1]; simpl in *; [|done].
  etrans; [exact Hm|apply Hk].
Qed.

Lemma append_only_ret {A} (a : A) : append_only (ret a).
Proof. by intros s. Qed.

Section AppendOnly.
Hypothesis Hbase : base_append_only.

Lemma append_only_complete_value rt fn info path v :
  append_only (complete_value rt fn info path v).
Proof.
  unfold complete_value. destruct (is_thenable v) eqn:Hv.
  - apply is_thenable_spec in Hv as [p ->]. intros s. simpl.
    by rewrite errors_subscribe.
  - apply Hbase.
Qed.

Lemma append_only_execute_fields_loop pt src path
    (fields : list (string * list FieldNode)) cp results :
  append_only (execute_fields_loop pt src path fields cp results).
Proof.
  revert cp results. induction fields as [|[k fn] fields IH]; intros cp results; simpl.
  - apply append_only_ret.
  - apply append_only_bind; [apply Hbase|]. intros r.
    destruct (is_undefined r); apply IH.
Qed.

Lemma append_only_execute_fields pt src path (fields : list (string * list FieldNode)) :
  append_only (execute_fields pt src path fields).
Proof.
  unfold execute_fields. apply append_only_bind.
  - apply append_only_execute_fields_loop.
  - intros [[] results]; [|apply append_only_ret].
    apply append_only_bind; [|intros; apply append_only_ret].
    intros s. by rewrite errors_promise_for_dict.
Qed.

Lemma append_only_execute_operation op root :
  append_only (execute_operation op root).
Proof.
  intros s. by rewrite execute_operation_state.
Qed.

Lemma append_only_apply_fulfilled f v : append_only (apply_fulfilled f v).
Proof.
  destruct f; simpl.
  - destruct (iterate v); by intros s.
  - apply Hbase.
  - apply Hbase.
  - apply append_only_complete_value.
Qed.

Lemma append_only_apply_rejected g e : append_only (apply_rejected g e).
Proof.
  destruct g; simpl.
  - intros s. simpl. by apply prefix_app_r.
  - apply append_only_bind; [apply Hbase|intros; apply append_only_ret].
Qed.

Lemma errors_finish t (m : M Value) s :
  append_only m -> errors s `prefix_of` errors (finish t m s).
Proof.
  intros Hm. unfold finish. specialize (Hm s).
  destruct (m s) as [[v|e] s1]; simpl in Hm.
  - by rewrite errors_resolve_with.
  - by rewrite errors_settle.
Qed.

Lemma errors_run_task task s : errors s `prefix_of` errors (run_task task s).
Proof.
  destruct task as [o r|p o]; simpl; [|by rewrite errors_settle].
  destruct r as [f g t|i t|t]; simpl.
  - destruct o as [v|e].
    + destruct f; [|by rewrite errors_settle].
      apply errors_finish, append_only_apply_fulfilled.
    + destruct g; [|by rewrite errors_settle].
      apply errors_finish, append_only_apply_rejected.
  - destruct o; [|by rewrite errors_settle].
    by rewrite errors_all_check, errors_set_slot.
  - by rewrite errors_settle.
Qed.

Lemma errors_step s s' : step s = Some s' -> errors s `prefix_of` errors s'.
Proof.
  unfold step. destruct (queue s) as [|task q] eqn:Hq; [done|].
  intros [= <-]. apply (errors_run_task task (set_queue (fun _ => q) s)).
Qed.

Lemma errors_run_queue fuel s : errors s `prefix_of` errors (run_queue fuel s).
Proof.
  revert s. induction fuel as [|n IH]; intros s; simpl; [done|].
  destruct (step s) as [s'|] eqn:Hs; [|done].
  etrans; [by apply errors_step|apply IH].
Qed.

Lemma errors_Promise_get fuel p s r s' :
  Promise_get fuel p s = Some (r, s') -> errors s `prefix_of` errors s'.
Proof.
  revert s. induction fuel as [|n IH]; intros s; simpl.
  - destruct (heap s !! p) as [[|[]]|]; try done; by intros [= _ <-].
  - destruct (heap s !! p) as [[|[]]|]; try (by intros [= _ <-]);
      (destruct (step s) as [s1|] eqn:Hs; [|done]);
      intros Hget; (etrans; [by apply errors_step|by apply IH]).
Qed.

Lemma errors_build_response fuel data s r s' :
  build_response fuel data s = Some (r, s') -> errors s `prefix_of` errors s'.
Proof.
  unfold build_response. destruct (is_thenable data) eqn:Hd.
  - apply is_thenable_spec in Hd as [p ->].
    rewrite build_response_registers. intros Hget.
    apply errors_Promise_get in Hget.
    by rewrite errors_subscribe in Hget; simpl in Hget;
      rewrite errors_subscribe in Hget.
  - intros [= Hr]. destruct Hbase as (_ & Hb & _).
    specialize (Hb data s). by rewrite Hr in Hb.
Qed.

End AppendOnly.

(** The loop leaves the state the resolutions leave, whatever it collects. *)
Lemma execute_fields_loop_state pt src path (fields : list (string * list FieldNode)) :
  forall cp results s,
    (execute_fields_loop pt src path fields cp results s).2 =
    (resolve_in_order pt src path fields s).2.
Proof.
  induction fields as [|[k fn] fields IH]; intros cp results s; simpl; [done|].
  unfold bind. destruct (resolve_field _ _ _ _ s) as [[r|e] s1]; [|done].
  transitivity (resolve_in_order pt src path fields s1).2.
  - destruct (is_undefined r); apply IH.
  - by destruct (resolve_in_order pt src path fields s1) as [[rs|e] s2].
Qed.

Lemma errors_execute_fields pt src path (fields : list (string * list FieldNode)) s :
  errors (execute_fields pt src path fields s).2 =
  errors (resolve_in_order pt src path fields s).2.
Proof.
  rewrite <- (execute_fields_loop_state pt src path fields false [] s).
  unfold execute_fields, bind.
  destruct (execute_fields_loop pt src path fields false [] s)
    as [[[[] results]|e] s1]; cbn [snd]; [|done..].
  pose proof (errors_promise_for_dict results s1) as Hp.
  unfold bind. by destruct (promise_for_dict results s1) as [[p|e] s2].
Qed.



(** *** [promise_for_dict]: the order of settlement does not matter *)

Lemma mapM_id_None {A} (l : list (option A)) :
  mapM id l = None -> exists j, l !! j = Some None.
Proof.
  induction l as [|[x|] l IH]; simpl; intros Hl.
  - done.
  - destruct (mapM id l) eqn:Hm; [done|].
    destruct IH as [j Hj]; [done|]. by exists (S j).
  - by exists 0.
Qed.

Lemma mapM_id_Some {A} (l : list (option A)) (k : list A) :
  mapM id l = Some k -> l = Some <$> k.
Proof.
  revert k. induction l as [|[x|] l IH]; simpl; intros k Hl.
  - by injection Hl as <-.
  - destruct (mapM id l) eqn:Hm; [|done]. injection Hl as <-.
    simpl. f_equal. by apply IH.
  - done.
Qed.

Lemma mapM_id_fmap_Some {A} (k : list A) : mapM id (Some <$> k) = Some k.
Proof.
  induction k as [|x k IH]; [done|].
  change (mapM id (Some <$> x :: k))
    with (y ← Some x; ks ← mapM id (Some <$> k); mret (y :: ks)).
  by rewrite IH.
Qed.

Section PromiseForDict.
Variables (value : dict) (s : state) (out : pid -> Value) (order : list pid).
Hypothesis Hord : forall q, q ∈ order -> exists sl, heap s !! q = Some (Pending [] sl).
Hypothesis Hvals : forall q, VPromise q ∈ values value ->
  (exists w, heap s !! q = Some (Settled (Fulfilled w))) \/ q ∈ order.

Local Abbreviation a := (length (heap s)).
Local Abbreviation vs := (values value).
Local Abbreviation fin := (settled_value s out).
Local Abbreviation good_task := (Settlement.good_task value s out).
Local Abbreviation good_reaction := (Settlement.good_reaction value s).
Local Abbreviation collecting := (Settlement.collecting value s out order).

Lemma order_lt q : q ∈ order -> q < a.
Proof. intros [sl Hq]%Hord. by apply lookup_lt_Some in Hq. Qed.

Lemma fin_settled q w :
  heap s !! q = Some (Settled (Fulfilled w)) -> fin (VPromise q) = w.
Proof. simpl. by intros ->. Qed.

Lemma fin_order q : q ∈ order -> fin (VPromise q) = out q.
Proof. intros [sl Hq]%Hord. simpl. by rewrite Hq. Qed.

Lemma fin_plain v : is_thenable v = false -> fin v = v.
Proof. by destruct v. Qed.

Lemma collecting_start :
  collecting 0 (set_heap (fun h => h ++ [Pending [] (replicate (length vs) None)]) s).
Proof.
  split_and!.
  - exists []. simpl. rewrite app_nil_r. split_and!; [done|constructor|].
    intros; lia.
  - eexists. simpl. split_and!; [apply lookup_alloc|apply length_replicate|].
    intros j v Hj. rewrite lookup_replicate_2 by by apply lookup_lt_Some in Hj.
    destruct (is_thenable v); [done|]. by destruct (decide (j < 0)); [lia|].
  - intros q Hq. destruct (Hord q Hq) as [sl Hsl]. exists [], sl.
    simpl. split_and!; [by apply lookup_alloc_old|constructor|intros; lia].
  - intros q w Hq. simpl. by apply lookup_alloc_old.
Qed.

Lemma collecting_step k c v :
  collecting k c -> vs !! k = Some v ->
  collecting (S k)
    match v with
    | VPromise q => subscribe q (RAll k a) c
    | _ => set_slot a k v c
    end.
Proof.
  intros ((rest & Hqueue & Hrest & Hcov) & (slots & Ha & Hlen & Hslots) & Hpend & Hset) Hk.
  destruct (is_thenable v) eqn:Hv.
  - apply is_thenable_spec in Hv as [q ->].
    assert (Hin : VPromise q ∈ vs) by (by eapply list_elem_of_lookup_2).
    destruct (Hvals q Hin) as [[w Hw]|Hq].
    + (* fulfilled already: the reaction is scheduled *)
      pose proof (Hset q w Hw) as Hc.
      rewrite (subscribe_settled _ _ _ _ Hc).
      split_and!.
      * exists (rest ++ [TReact (Fulfilled w) (RAll k a)]). simpl.
        rewrite Hqueue, <- app_assoc. split_and!; [done| |].
        -- apply Forall_app. split; [done|]. constructor; [|constructor].
           exists k, q. by rewrite (fin_settled q w).
        -- intros j q' w' Hj Hj' Hw'. apply elem_of_app.
           destruct (decide (j = k)) as [->|Hne].
           ++ right. rewrite Hk in Hj'. injection Hj' as <-.
              rewrite Hw in Hw'. injection Hw' as <-. left.
           ++ left. apply (Hcov j q' w'); [lia|done..].
      * exists slots. simpl. split_and!; [done..|].
        intros j v Hj. rewrite (Hslots j v Hj). destruct (is_thenable v) eqn:Hv; [done|].
        destruct (decide (j = k)) as [->|Hne].
        -- rewrite Hk in Hj. by injection Hj as <-.
        -- destruct (decide (j < k)), (decide (j < S k)); (done || lia).
      * intros q' Hq'. destruct (Hpend q' Hq') as (rs & sl & Hh & Hgood & Hsub).
        exists rs, sl. simpl. split_and!; [done..|].
        intros j Hj Hj'. destruct (decide (j = k)) as [->|Hne].
        -- rewrite Hk in Hj'. injection Hj' as <-.
           destruct (Hord q Hq') as [sl' Hsl']. congruence.
        -- apply Hsub; [lia|done].
      * done.
    + (* pending: the reaction is kept with the promise *)
      destruct (Hpend q Hq) as (rs & sl & Hh & Hgood & Hsub).
      rewrite (subscribe_pending _ _ _ _ _ Hh).
      pose proof (order_lt q Hq) as Hlt.
      split_and!.
      * exists rest. simpl. split_and!; [done..|].
        intros j q' w' Hj Hj' Hw'. destruct (decide (j = k)) as [->|Hne].
        -- rewrite Hk in Hj'. injection Hj' as <-.
           destruct (Hord q Hq) as [sl' Hsl']. congruence.
        -- apply (Hcov j q' w'); [lia|done..].
      * exists slots. simpl. split_and!; [|done|].
        -- rewrite list_lookup_insert_ne by lia. done.
        -- intros j v Hj. rewrite (Hslots j v Hj).
           destruct (is_thenable v) eqn:Hv; [done|].
           destruct (decide (j = k)) as [->|Hne].
           ++ rewrite Hk in Hj. by injection Hj as <-.
           ++ destruct (decide (j < k)), (decide (j < S k)); (done || lia).
      * intros q' Hq'. simpl. destruct (decide (q' = q)) as [->|Hne].
        -- exists (rs ++ [RAll k a]), sl. split_and!.
           ++ apply list_lookup_insert_eq. by apply lookup_lt_Some in Hh.
           ++ apply Forall_app. split; [done|]. constructor; [|constructor].
              by exists k.
           ++ intros j Hj Hj'. apply elem_of_app.
              destruct (decide (j = k)) as [->|Hne]; [right; left|].
              left. apply Hsub; [lia|done].
        -- destruct (Hpend q' Hq') as (rs' & sl' & Hh' & Hgood' & Hsub').
           exists rs', sl'. split_and!; [|done|].
           ++ by rewrite list_lookup_insert_ne.
           ++ intros j Hj Hj'. destruct (decide (j = k)) as [->|Hnek].
              ** rewrite Hk in Hj'. by injection Hj' as <-.
              ** apply Hsub'; [lia|done].
      * intros q' w Hw. simpl. rewrite list_lookup_insert_ne; [by apply Hset|].
        intros ->. destruct (Hord q' Hq) as [sl' Hsl'].
        assert (Some (Settled (Fulfilled w)) = Some (Pending [] sl')) as [=].
        { rewrite <- Hw. exact Hsl'. }
  - (* a plain value fills its slot *)
    replace (match v with VPromise q => subscribe q (RAll k a) c | _ => set_slot a k v c end)
      with (set_slot a k v c) by by destruct v.
    unfold set_slot. rewrite Ha.
    split_and!.
    + exists rest. simpl. split_and!; [done..|].
      intros j q' w' Hj Hj' Hw'. destruct (decide (j = k)) as [->|Hne].
      * rewrite Hk in Hj'. injection Hj' as ->. done.
      * apply (Hcov j q' w'); [lia|done..].
    + exists (<[k := Some v]> slots). simpl. split_and!.
      * apply list_lookup_insert_eq. by apply lookup_lt_Some in Ha.
      * by rewrite length_insert.
      * intros j v' Hj. destruct (decide (j = k)) as [->|Hne].
        -- rewrite Hk in Hj. injection Hj as <-. rewrite Hv.
           rewrite list_lookup_insert_eq
             by (rewrite Hlen; by apply lookup_lt_Some in Hk).
           by destruct (decide (k < S k)); [|lia].
        -- rewrite list_lookup_insert_ne by done. rewrite (Hslots j v' Hj).
           destruct (is_thenable v'); [done|].
           destruct (decide (j < k)), (decide (j < S k)); (done || lia).
    + intros q Hq. destruct (Hpend q Hq) as (rs & sl & Hh & Hgood & Hsub).
      exists rs, sl. simpl. split_and!; [|done|].
      * rewrite list_lookup_insert_ne; [done|].
        pose proof (order_lt q Hq). lia.
      * intros j Hj Hj'. destruct (decide (j = k)) as [->|Hne].
        -- rewrite Hk in Hj'. injection Hj' as ->. done.
        -- apply Hsub; [lia|done].
    + intros q w Hw. simpl. rewrite list_lookup_insert_ne; [by apply Hset|].
      apply lookup_lt_Some in Hw. lia.
Qed.

Lemma all_collect_collecting vs' k c :
  drop k vs = vs' -> collecting k c ->
  exists k', length vs <= k' /\ collecting k' (all_collect a k vs' c).
Proof.
  revert k c. induction vs' as [|v vs' IH]; intros k c Hdrop Hc; simpl.
  - exists k. split; [|done].
    destruct (decide (length vs <= k)); [done|].
    assert (is_Some (drop k vs !! 0)) as [x Hx].
    { rewrite lookup_drop. apply lookup_lt_is_Some. lia. }
    by rewrite Hdrop in Hx.
  - assert (Hk : vs !! k = Some v).
    { rewrite <- (Nat.add_0_r k), <- lookup_drop. by rewrite Hdrop. }
    apply (IH (S k)); [|by apply collecting_step].
    rewrite <- (drop_drop vs 1 k) || rewrite <- Nat.add_1_r. 
    replace (S k) with (k + 1) by lia. rewrite <- drop_drop. by rewrite Hdrop.
Qed.


(** The second phase: the reactions fill the slots of the promise [all]
    returned, whatever order they come in. *)
Hypothesis Hkeys : NoDup (keys value).

Local Abbreviation t := (S (length (heap s))).
Local Abbreviation finals := (fin <$> vs).
Local Abbreviation the_reaction := (Settlement.the_reaction value s).
Local Abbreviation final_task := (Settlement.final_task value s out).
Local Abbreviation final_dict := (Settlement.final_dict value s out).
Local Abbreviation settlement := (Settlement.settlement out).

Lemma run_queue_add n m c : run_queue (n + m) c = run_queue m (run_queue n c).
Proof.
  revert c. induction n as [|n IH]; intros c; simpl; [done|].
  destruct (step c) as [c'|] eqn:Hs; [apply IH|].
  destruct m; simpl; [done|]. by rewrite Hs.
Qed.

Lemma run_queue_cons n x q c :
  queue c = x :: q ->
  run_queue (S n) c = run_queue n (run_task x (set_queue (fun _ => q) c)).
Proof. intros Hq. simpl. by rewrite (step_cons _ _ _ Hq). Qed.

Lemma final_task_runs c :
  heap c !! t = Some (Pending [] []) ->
  run_task final_task c =
  set_heap (fun h => <[t := Settled (Fulfilled final_dict)]> h) c.
Proof.
  intros Ht. simpl. unfold finish. simpl. unfold ret. simpl.
  rewrite (settle_pending _ _ _ _ _ Ht). unfold schedule, set_queue, set_heap.
  simpl. rewrite app_nil_r. unfold final_dict. rewrite dict_of_NoDup; [done|].
  rewrite fst_zip; [done|]. unfold keys, values. by rewrite !length_fmap.
Qed.

Lemma good_task_noop x o c :
  good_task x -> heap c !! a = Some (Settled o) -> run_task x c = c.
Proof.
  intros (i & q & _ & ->) Ha. simpl. unfold set_slot. rewrite Ha.
  unfold all_check. by rewrite Ha.
Qed.

Lemma drain_noop L : forall c o fuel,
  queue c = L -> Forall good_task L -> heap c !! a = Some (Settled o) ->
  heap (run_queue fuel c) = heap c.
Proof.
  induction L as [|x L IH]; intros c o fuel Hq HL Ha.
  - destruct fuel; simpl; [done|]. unfold step. by rewrite Hq.
  - destruct fuel; [done|]. rewrite (run_queue_cons _ _ _ _ Hq).
    apply Forall_cons in HL as [Hx HL].
    rewrite (good_task_noop x o) by done.
    by rewrite (IH _ o).
Qed.

Lemma drain_settled L : forall L2 c o fuel,
  queue c = L ++ final_task :: L2 -> Forall good_task L -> Forall good_task L2 ->
  heap c !! a = Some (Settled o) -> heap c !! t = Some (Pending [] []) ->
  S (length L) <= fuel ->
  heap (run_queue fuel c) !! t = Some (Settled (Fulfilled final_dict)).
Proof.
  induction L as [|x L IH]; intros L2 c o fuel Hq HL HL2 Ha Ht Hfuel;
    (destruct fuel as [|fuel]; [simpl in Hfuel; lia|]);
    rewrite (run_queue_cons _ _ _ _ Hq).
  - rewrite final_task_runs by done.
    rewrite (drain_noop L2 _ o); simpl; [|done..|].
    + apply list_lookup_insert_eq. by apply lookup_lt_Some in Ht.
    + by rewrite list_lookup_insert_ne by lia.
  - apply Forall_cons in HL as [Hx HL].
    rewrite (good_task_noop x o) by done.
    apply (IH L2 _ o); try done. simpl in Hfuel. lia.
Qed.

Lemma drain_pending L : forall c slots fuel,
  queue c = L -> Forall good_task L ->
  heap c !! a = Some (Pending [the_reaction] slots) ->
  length slots = length vs ->
  (forall j v, vs !! j = Some v ->
     slots !! j = Some (Some (fin v)) \/
     (slots !! j = Some None /\ TReact (Fulfilled (fin v)) (RAll j a) ∈ L)) ->
  (exists j, slots !! j = Some None) ->
  heap c !! t = Some (Pending [] []) ->
  S (length L) <= fuel ->
  heap (run_queue fuel c) !! t = Some (Settled (Fulfilled final_dict)).
Proof.
  induction L as [|x L IH]; intros c slots fuel Hq HL Ha Hlen Hslots [j0 Hj0] Ht Hfuel.
  - (* no reaction left, yet a slot is empty: impossible *)
    assert (is_Some (vs !! j0)) as [v Hv].
    { apply lookup_lt_is_Some. rewrite <- Hlen. by apply lookup_lt_Some in Hj0. }
    destruct (Hslots j0 v Hv) as [Hs|[_ Hin]]; [congruence|].
    by apply elem_of_nil in Hin.
  - destruct fuel as [|fuel]; [simpl in Hfuel; lia|].
    rewrite (run_queue_cons _ _ _ _ Hq).
    apply Forall_cons in HL as [(i & q & Hi & ->) HL].
    set (c1 := set_queue (fun _ => L) c).
    set (w := fin (VPromise q)).
    assert (Hilt : i < length slots).
    { rewrite Hlen. by apply lookup_lt_Some in Hi. }
    set (slots' := <[i := Some w]> slots).
    assert (Hslots' : forall j v, vs !! j = Some v ->
       slots' !! j = Some (Some (fin v)) \/
       (slots' !! j = Some None /\ TReact (Fulfilled (fin v)) (RAll j a) ∈ L)).
    { intros j v Hv. unfold slots'. destruct (decide (j = i)) as [->|Hne].
      - left. rewrite list_lookup_insert_eq by done.
        rewrite Hi in Hv. by injection Hv as <-.
      - rewrite list_lookup_insert_ne by done.
        destruct (Hslots j v Hv) as [Hs|[Hs Hin]]; [by left|right].
        split; [done|]. apply elem_of_cons in Hin as [Heq|Hin]; [|done].
        injection Heq as _ Heq. done. }
    assert (Hset : set_slot a i w c1 =
              set_heap (fun h => <[a := Pending [the_reaction] slots']> h) c1).
    { unfold set_slot. simpl. by rewrite Ha. }
    cbn [run_task run_reaction]. rewrite Hset.
    assert (Ha' : heap (set_heap (fun h => <[a := Pending [the_reaction] slots']> h) c1)
                    !! a = Some (Pending [the_reaction] slots')).
    { simpl. apply list_lookup_insert_eq. by apply lookup_lt_Some in Ha. }
    assert (Ht' : heap (set_heap (fun h => <[a := Pending [the_reaction] slots']> h) c1)
                    !! t = Some (Pending [] [])).
    { simpl. by rewrite list_lookup_insert_ne by lia. }
    unfold all_check. rewrite Ha'.
    destruct (mapM id slots') as [res|] eqn:Hres.
    + (* the last slot: the promise is fulfilled with the list *)
      assert (res = finals) as ->.
      { apply mapM_id_Some in Hres. apply (inj (fmap Some)).
        rewrite <- Hres. apply list_eq. intros j.
        rewrite list_lookup_fmap.
        destruct (vs !! j) as [v|] eqn:Hv.
        - rewrite list_lookup_fmap, Hv. simpl.
          destruct (Hslots' j v Hv) as [Hs|[Hs _]]; [done|].
          rewrite Hres, list_lookup_fmap in Hs.
          by destruct (res !! j).
        - rewrite list_lookup_fmap, Hv. simpl.
          apply lookup_ge_None. unfold slots'. rewrite length_insert, Hlen.
          by apply lookup_ge_None in Hv. }
      rewrite (settle_pending _ _ _ _ _ Ha').
      eapply (drain_settled L []).
      * simpl. reflexivity.
      * done.
      * constructor.
      * simpl. rewrite list_insert_insert_eq. apply list_lookup_insert_eq.
        by apply lookup_lt_Some in Ha.
      * simpl. rewrite list_insert_insert_eq. by rewrite list_lookup_insert_ne by lia.
      * simpl in Hfuel. lia.
    + apply (IH _ slots'); try done.
      * unfold slots'. by rewrite length_insert.
      * by apply mapM_id_None.
      * simpl in Hfuel. lia.
Qed.


(** The first phase: the environment settles the pending promises, in the
    order the queue has them. *)

Lemma run_task_settlement q c :
  run_task (settlement q) c = settle q (Fulfilled (out q)) c.
Proof. reflexivity. Qed.

Lemma settle_in_order order' : forall c rest,
  NoDup order' ->
  queue c = (settlement <$> order') ++ rest ->
  (forall q, q ∈ order' -> q ∈ order /\ exists rs sl,
     heap c !! q = Some (Pending rs sl) /\ Forall (good_reaction q) rs) ->
  exists new,
    queue (run_queue (length order') c) = rest ++ new /\
    Forall good_task new /\
    (forall q rs sl r, q ∈ order' -> heap c !! q = Some (Pending rs sl) -> r ∈ rs ->
       TReact (Fulfilled (out q)) r ∈ new) /\
    (forall p, p ∉ order' -> heap (run_queue (length order') c) !! p = heap c !! p).
Proof.
  induction order' as [|q order' IH]; intros c rest Hnd Hq Hpend.
  - exists []. simpl. rewrite app_nil_r. split_and!; [done|constructor| |done].
    intros q rs sl r Hin. by apply elem_of_nil in Hin.
  - apply NoDup_cons in Hnd as [Hnotin Hnd].
    destruct (Hpend q) as (Hqo & rs & sl & Hh & Hgood); [left|].
    change (length (q :: order')) with (S (length order')).
    assert (Hcons : queue c = settlement q :: ((settlement <$> order') ++ rest))
      by exact Hq.
    rewrite (run_queue_cons _ _ _ _ Hcons), run_task_settlement.
    set (c1 := set_queue (fun _ => (settlement <$> order') ++ rest) c).
    assert (Hh1 : heap c1 !! q = Some (Pending rs sl)) by done.
    rewrite (settle_pending _ _ _ _ _ Hh1).
    set (newq := TReact (Fulfilled (out q)) <$> rs).
    set (c2 := schedule newq (set_heap (fun h => <[q := Settled (Fulfilled (out q))]> h) c1)).
    assert (Hother : forall p, p <> q -> heap c2 !! p = heap c !! p).
    { intros p Hp. simpl. by rewrite list_lookup_insert_ne. }
    destruct (IH c2 (rest ++ newq)) as (new & Hqueue & Hnew & Hcov & Hsame).
    + done.
    + simpl. by rewrite <- app_assoc.
    + intros q' Hq'. destruct (Hpend q') as (? & rs' & sl' & Hh' & Hgood'); [by right|].
      split; [done|]. exists rs', sl'. split; [|done].
      rewrite Hother; [done|]. intros ->. done.
    + exists (newq ++ new). split_and!.
      * by rewrite Hqueue, <- app_assoc.
      * apply Forall_app. split; [|done]. unfold newq.
        apply Forall_fmap. eapply Forall_impl; [exact Hgood|].
        intros r (i & Hi & ->). exists i, q. split; [done|].
        by rewrite (fin_order q Hqo).
      * intros q0 rs0 sl0 r Hq0 Hh0 Hr. apply elem_of_app.
        apply elem_of_cons in Hq0 as [->|Hq0].
        -- left. rewrite Hh in Hh0. injection Hh0 as <- <-.
           unfold newq. apply list_elem_of_fmap. by exists r.
        -- right. apply (Hcov q0 rs0 sl0 r); [done| |done].
           rewrite Hother; [done|]. intros ->. done.
      * intros p Hp. apply not_elem_of_cons in Hp as [Hne Hp].
        rewrite Hsame by done. by apply Hother.
Qed.

(** The state [promise_for_dict] leaves. *)
Lemma promise_for_dict_registers :
  exists s1 rest,
    promise_for_dict value s = (Ok t, s1) /\
    queue s1 = queue s ++ rest /\
    heap s1 !! t = Some (Pending [] []) /\
    (forall q, q ∈ order -> exists rs sl,
       heap s1 !! q = Some (Pending rs sl) /\ Forall (good_reaction q) rs /\
       forall j, vs !! j = Some (VPromise q) -> RAll j a ∈ rs) /\
    ((exists o rest0, heap s1 !! a = Some (Settled o) /\
        rest = rest0 ++ [final_task] /\ Forall good_task rest0) \/
     (exists slots, heap s1 !! a = Some (Pending [the_reaction] slots) /\
        length slots = length vs /\ Forall good_task rest /\
        (exists j, slots !! j = Some None) /\
        forall j v, vs !! j = Some v ->
          slots !! j = Some (Some (fin v)) \/
          (slots !! j = Some None /\ exists q, v = VPromise q /\
             ((exists w, heap s !! q = Some (Settled (Fulfilled w)) /\
                         TReact (Fulfilled w) (RAll j a) ∈ rest) \/ q ∈ order)))).
Proof.
  destruct (all_collect_collecting vs 0 _ eq_refl collecting_start)
    as (k & Hk & (rest & Hqueue & Hrest & Hcov) & (slots & Ha & Hlen & Hslots)
        & Hpend & Hset).
  set (c := all_collect a 0 vs
              (set_heap (fun h => h ++ [Pending [] (replicate (length vs) None)]) s))
    in *.
  assert (Hclen : length (heap c) = t).
  { unfold c. rewrite all_collect_length. simpl. rewrite length_app. simpl. lia. }
  assert (Hjk : forall j v, vs !! j = Some v -> j < k).
  { intros j v Hj. apply lookup_lt_Some in Hj. lia. }
  assert (Hslots' : forall j v, vs !! j = Some v ->
            slots !! j = Some (if is_thenable v then None else Some v)).
  { intros j v Hj. rewrite (Hslots j v Hj). destruct (is_thenable v); [done|].
    destruct (decide (j < k)); [done|]. by apply Hjk in Hj. }
  assert (Hpend' : forall c', (forall q, q < a -> heap c' !! q = heap c !! q) ->
            forall q, q ∈ order -> exists rs sl,
              heap c' !! q = Some (Pending rs sl) /\ Forall (good_reaction q) rs /\
              forall j, vs !! j = Some (VPromise q) -> RAll j a ∈ rs).
  { intros c' Hc' q Hq. destruct (Hpend q Hq) as (rs & sl & Hh & Hgood & Hsub).
    exists rs, sl. rewrite Hc' by by apply order_lt. split_and!; [done..|].
    intros j Hj. apply Hsub; [|done]. by apply Hjk in Hj. }
  unfold promise_for_dict, bind. rewrite Promise_all_returns. fold c.
  unfold all_check. rewrite Ha.
  destruct (mapM id slots) as [res|] eqn:Hres.
  - (* no promise among the values *)
    apply mapM_id_Some in Hres.
    assert (res = finals) as ->.
    { apply list_eq. intros j. rewrite list_lookup_fmap.
      destruct (vs !! j) as [v|] eqn:Hv; simpl.
      - pose proof (Hslots' j v Hv) as Hs.
        rewrite Hres, list_lookup_fmap in Hs.
        destruct (res !! j) as [x|]; [|done]. simpl in Hs.
        destruct (is_thenable v) eqn:Hthen; [done|].
        injection Hs as ->. by rewrite fin_plain.
      - apply lookup_ge_None. apply lookup_ge_None in Hv.
        rewrite <- Hlen, Hres, length_fmap in Hv. done. }
    rewrite (settle_pending _ _ _ _ _ Ha). rewrite Promise_then_returns.
    cbn [heap schedule set_queue set_heap errors queue world fmap list_fmap].
    rewrite length_insert, Hclen.
    erewrite subscribe_settled; last first.
    { simpl. apply lookup_alloc_old. apply list_lookup_insert_eq.
      by apply lookup_lt_Some in Ha. }
    eexists _, (rest ++ [final_task]). split_and!.
    + reflexivity.
    + simpl. rewrite Hqueue, app_nil_r. by rewrite <- app_assoc.
    + simpl. rewrite <- Hclen, <- (length_insert (heap c) a (Settled (Fulfilled (VList finals)))).
      apply lookup_alloc.
    + apply Hpend'. intros q Hq. simpl.
      rewrite lookup_app_l by (rewrite length_insert; lia).
      by rewrite list_lookup_insert_ne by lia.
    + left. exists (Fulfilled (VList finals)), rest. split_and!; [|done..].
      simpl. apply lookup_alloc_old. apply list_lookup_insert_eq.
      by apply lookup_lt_Some in Ha.
  - rewrite Promise_then_returns. rewrite Hclen.
    erewrite subscribe_pending; last first.
    { simpl. apply lookup_alloc_old. exact Ha. }
    eexists _, rest. split_and!.
    + reflexivity.
    + done.
    + simpl. rewrite list_lookup_insert_ne by lia. rewrite <- Hclen. apply lookup_alloc.
    + apply Hpend'. intros q Hq. simpl.
      rewrite list_lookup_insert_ne by lia.
      by rewrite lookup_app_l by lia.
    + right. exists slots. split_and!; [|done..| |].
      * simpl. apply list_lookup_insert_eq. rewrite length_app. simpl. lia.
      * by apply mapM_id_None.
      * intros j v Hv. rewrite (Hslots' j v Hv).
        destruct (is_thenable v) eqn:Hthen.
        -- right. split; [done|]. apply is_thenable_spec in Hthen as [q ->].
           exists q. split; [done|].
           destruct (Hvals q) as [[w Hw]|Hq]; [by eapply list_elem_of_lookup_2| |by right].
           left. exists w. split; [done|]. apply (Hcov j q w); [|done..].
           by apply Hjk in Hv.
        -- left. by rewrite fin_plain.
Qed.


Hypothesis Hqueue0 : queue s = settlement <$> order.
Hypothesis Hnodup : NoDup order.

Lemma promise_for_dict_settles :
  exists s1 k,
    promise_for_dict value s = (Ok t, s1) /\
    forall fuel, k <= fuel ->
      heap (run_queue fuel s1) !! t = Some (Settled (Fulfilled final_dict)).
Proof.
  destruct promise_for_dict_registers as (s1 & rest & Hp & Hqueue & Ht & Hpend & Hcase).
  rewrite Hqueue0 in Hqueue.
  destruct (settle_in_order order s1 rest Hnodup Hqueue) as (new & Hq1 & Hnew & Hcov & Hsame).
  { intros q Hq. split; [done|]. destruct (Hpend q Hq) as (rs & sl & ? & ? & _).
    by exists rs, sl. }
  assert (Ha_notin : a ∉ order) by (intros Hin%order_lt; lia).
  assert (Ht_notin : t ∉ order) by (intros Hin%order_lt; lia).
  exists s1.
  destruct Hcase as [(o & rest0 & Ha & -> & Hrest0)
                    |(slots & Ha & Hlen & Hrest & Hnone & Hslots)].
  - exists (length order + S (length rest0)). split; [done|].
    intros fuel Hfuel.
    replace fuel with (length order + (fuel - length order)) by lia.
    rewrite run_queue_add.
    apply (drain_settled rest0 new _ o); try done.
    + by rewrite Hq1, <- app_assoc.
    + by rewrite Hsame.
    + by rewrite Hsame.
    + lia.
  - exists (length order + S (length (rest ++ new))). split; [done|].
    intros fuel Hfuel.
    replace fuel with (length order + (fuel - length order)) by lia.
    rewrite run_queue_add.
    apply (drain_pending (rest ++ new) _ slots); try done.
    + by apply Forall_app.
    + by rewrite Hsame.
    + intros j v Hv. destruct (Hslots j v Hv) as [Hs|(Hs & q & -> & Hq)]; [by left|].
      right. split; [done|]. apply elem_of_app.
      destruct Hq as [(w & Hw & Hin)|Hq].
      * left. by rewrite (fin_settled q w).
      * right. destruct (Hpend q Hq) as (rs & sl & Hh & _ & Hsub).
        rewrite (fin_order q Hq). apply (Hcov q rs sl); [done..|].
        by apply Hsub.
    + by rewrite Hsame.
    + lia.
Qed.

End PromiseForDict.

(** C2: [promise_for_dict] returns a promise that is fulfilled with a plain
    mapping: the keys of the argument in their order, the i-th key with what
    the i-th value settles to.  The values that are promises are fulfilled
    already or are pending with nobody waiting for them yet, and what is
    scheduled is the fulfilment of the pending ones by the environment, in
    the order [order], which is any order at all; the mapping is the same
    for every one of them, once the loop has run long enough. *)
Theorem promise_for_dict_keeps_key_order (value : dict) s (out : pid -> Value)
    (order : list pid) :
  NoDup (keys value) ->
  NoDup order ->
  queue s = (fun q => TSettle q (Fulfilled (out q))) <$> order ->
  (forall q, q ∈ order -> exists sl, heap s !! q = Some (Pending [] sl)) ->
  (forall q, VPromise q ∈ values value ->
     (exists w, heap s !! q = Some (Settled (Fulfilled w))) \/ q ∈ order) ->
  exists s1 k,
    promise_for_dict value s = (Ok (S (length (heap s))), s1) /\
    forall fuel, k <= fuel ->
      heap (run_queue fuel s1) !! S (length (heap s)) =
      Some (Settled (Fulfilled
        (VDict (zip (keys value) (settled_value s out <$> values value))))).
Proof.
  intros Hkeys Hnodup Hqueue Hord Hvals.
  exact (promise_for_dict_settles value s out order Hord Hvals Hkeys Hqueue Hnodup).
Qed.



(** ** Further properties of the executor *)

(** *** [execute_fields]: a field that raises *)

(** X1: the loop of [execute_fields] has no handler of its own.  When the
    resolution of a field raises, [execute_fields] raises the same exception
    in the state that field left: the fields after it are not resolved, and
    no promise is made of the results gathered so far. *)
Theorem execute_fields_stops_at_first_raise pt src path
    (before after : list (string * list FieldNode)) k (fn : list FieldNode)
    s rs s1 (e : Exception) s2 :
  resolve_in_order pt src path before s = (Ok rs, s1) ->
  resolve_field pt src fn (MkPath path (KStr k) (Some (name pt))) s1 = (Raise e, s2) ->
  execute_fields pt src path (before ++ (k, fn) :: after) s = (Raise e, s2).
Proof.
  intros Hbefore Hraise.
  assert (Hloop : forall cp results,
    execute_fields_loop pt src path (before ++ (k, fn) :: after) cp results s
    = (Raise e, s2)).
  { revert s rs Hbefore.
    induction before as [|[k' fn'] before IH]; intros s rs Hbefore cp results.
    - injection Hbefore as _ <-. simpl. unfold bind. by rewrite Hraise.
    - simpl in Hbefore |- *. unfold bind in Hbefore |- *.
      destruct (resolve_field pt src fn' _ s) as [[r|e'] s'] eqn:Hr; [|done].
      destruct (resolve_in_order pt src path before s') as [[rs'|e'] s1'] eqn:Hrest;
        [|done].
      injection Hbefore as _ <-.
      destruct (is_undefined r); by eapply IH. }
  unfold execute_fields, bind. by rewrite Hloop.
Qed.

(** *** Frame lemmas *)

Lemma world_settle p o s : world (settle p o s) = world s.
Proof. unfold settle. by destruct (heap s !! p) as [[]|]. Qed.

Lemma subscribe_lookup_ne p p' r s :
  p' <> p -> heap (subscribe p r s) !! p' = heap s !! p'.
Proof.
  intros Hne. unfold subscribe. destruct (heap s !! p) as [[rs sl|o]|]; simpl; [|done..].
  by rewrite list_lookup_insert_ne.
Qed.

(** *** [promise_for_dict]: a value that is rejected *)

Lemma mapM_id_unfilled {A} (l : list (option A)) r :
  l !! r = Some None -> mapM id l = None.
Proof.
  intros Hr. destruct (mapM id l) as [k|] eqn:Hm; [|done].
  apply mapM_id_Some in Hm. subst l.
  rewrite list_lookup_fmap in Hr. by destruct (k !! r).
Qed.

Lemma run_queue_empty n s : queue s = [] -> run_queue n s = s.
Proof. intros Hq. destruct n; simpl; [done|]. unfold step. by rewrite Hq. Qed.

Section PromiseForDictRejects.
Variables (value : dict) (s : state).

Local Abbreviation a := (length (heap s)).
Local Abbreviation t := (S (length (heap s))).
Local Abbreviation scheduled := (Rejection.scheduled s).
Local Abbreviation collects := (Rejection.collects s).
Local Abbreviation fills_before := (Rejection.fills_before s).
Local Abbreviation same_settled := (Rejection.same_settled s).
Local Abbreviation R := (RThen (Some (handle_success value)) None t).

Lemma scheduled_collects vs : forall i, Forall collects (scheduled i vs).
Proof.
  induction vs as [|v vs IH]; intros i; simpl; [done|].
  destruct v; try apply IH.
  destruct (heap s !! p) as [[|o]|]; try apply IH.
  constructor; [by exists o, i|apply IH].
Qed.

(** The first rejection is scheduled after fulfilments only. *)
Lemma first_rejection_scheduled vs (e : Exception) : forall i,
  first_rejection s vs = Some e ->
  exists r L1 L2,
    (exists q, vs !! r = Some (VPromise q)) /\
    scheduled i vs = L1 ++ TReact (Rejected e) (RAll (i + r) a) :: L2 /\
    Forall (fills_before (i + r)) L1 /\ Forall collects L2.
Proof.
  induction vs as [|v vs IH]; intros i Hfirst; [done|].
  assert (Hrest : first_rejection s vs = Some e ->
            exists r L1 L2,
              (exists q, vs !! r = Some (VPromise q)) /\
              scheduled (S i) vs = L1 ++ TReact (Rejected e) (RAll (i + S r) a) :: L2 /\
              Forall (fills_before (i + S r)) L1 /\ Forall collects L2).
  { intros Hvs. destruct (IH (S i) Hvs) as (r & L1 & L2 & Hr & HL & H1 & H2).
    exists r, L1, L2. replace (i + S r) with (S i + r) by lia. done. }
  assert (Hskip : first_rejection s vs = Some e ->
            exists r L1 L2,
              (exists q, (v :: vs) !! r = Some (VPromise q)) /\
              scheduled (S i) vs = L1 ++ TReact (Rejected e) (RAll (i + r) a) :: L2 /\
              Forall (fills_before (i + r)) L1 /\ Forall collects L2).
  { intros Hvs. destruct (Hrest Hvs) as (r & L1 & L2 & Hr & HL & H1 & H2).
    by exists (S r), L1, L2. }
  destruct v; try (simpl in Hfirst |- *; by apply Hskip).
  simpl in Hfirst |- *.
  destruct (heap s !! p) as [[rs sl|[w|e']]|] eqn:Hp; try by apply Hskip.
  - destruct (Hrest Hfirst) as (r & L1 & L2 & Hr & HL & H1 & H2).
    exists (S r), (TReact (Fulfilled w) (RAll i a) :: L1), L2.
    split_and!; [done|by rewrite HL| |done].
    constructor; [|done]. exists w, i. split; [done|lia].
  - injection Hfirst as ->.
    exists 0, [], (scheduled (S i) vs).
    rewrite Nat.add_0_r. split_and!; [by exists p|done|done|apply scheduled_collects].
Qed.

Hypothesis Hexist : forall q, VPromise q ∈ values value -> q < a.

(** [Promise.all] goes through the values: the reactions to the promises
    that are settled are scheduled, and the slot of a promise stays
    empty. *)
Lemma all_collect_scheduled r vs : forall i c slots,
  (forall q, VPromise q ∈ vs -> q < a) ->
  (forall v, i <= r -> vs !! (r - i) = Some v -> is_thenable v = true) ->
  heap c !! a = Some (Pending [] slots) -> slots !! r = Some None ->
  same_settled c ->
  exists slots',
    heap (all_collect a i vs c) !! a = Some (Pending [] slots') /\
    slots' !! r = Some None /\
    length (heap (all_collect a i vs c)) = length (heap c) /\
    queue (all_collect a i vs c) = queue c ++ scheduled i vs /\
    errors (all_collect a i vs c) = errors c.
Proof.
  induction vs as [|v vs IH]; intros i c slots Hex Hr Ha Hslot Hsame.
  { exists slots. simpl. by rewrite app_nil_r. }
  assert (Hex' : forall q, VPromise q ∈ vs -> q < a).
  { intros q Hq. apply Hex. by right. }
  assert (Hr' : forall v', S i <= r -> vs !! (r - S i) = Some v' -> is_thenable v' = true).
  { intros v' Hle Hv'. apply Hr; [lia|].
    replace (r - i) with (S (r - S i)) by lia. done. }
  assert (Hplain : is_thenable v = false ->
    exists slots',
      heap (all_collect a i (v :: vs) c) !! a = Some (Pending [] slots') /\
      slots' !! r = Some None /\
      length (heap (all_collect a i (v :: vs) c)) = length (heap c) /\
      queue (all_collect a i (v :: vs) c) = queue c ++ scheduled (S i) vs /\
      errors (all_collect a i (v :: vs) c) = errors c).
  { intros Hv.
    assert (Hne : i <> r).
    { intros ->. rewrite Nat.sub_diag in Hr. specialize (Hr v (le_n _) eq_refl).
      congruence. }
    pose proof (lookup_lt_Some _ _ _ Ha) as Hlt.
    assert (Hset : all_collect a i (v :: vs) c =
              all_collect a (S i) vs
                (set_heap (fun h => <[a := Pending [] (<[i := Some v]> slots)]> h) c)).
    { simpl. f_equal. unfold set_slot. rewrite Ha. by destruct v. }
    rewrite Hset.
    destruct (IH (S i) (set_heap (fun h => <[a := Pending [] (<[i := Some v]> slots)]> h) c)
                (<[i := Some v]> slots)) as (slots' & H1 & H2 & H3 & H4 & H5); try done.
    - simpl. by apply list_lookup_insert_eq.
    - by rewrite list_lookup_insert_ne.
    - intros q o Hq. rewrite (Hsame q o Hq). simpl.
      by rewrite list_lookup_insert_ne by lia.
    - exists slots'. split_and!; try done.
      rewrite H3. simpl. by rewrite length_insert. }
  destruct v; try (simpl scheduled; by apply Hplain).
  assert (Hp : p < a) by (apply Hex; left).
  change (all_collect a i (VPromise p :: vs) c)
    with (all_collect a (S i) vs (subscribe p (RAll i a) c)).
  destruct (IH (S i) (subscribe p (RAll i a) c) slots) as (slots' & H1 & H2 & H3 & H4 & H5);
    try done.
  - rewrite subscribe_lookup_ne by lia. done.
  - intros q o Hq. rewrite (Hsame q o Hq). unfold subscribe.
    destruct (heap c !! p) as [[rs sl|o']|] eqn:Hcp; simpl; [|done..].
    destruct (decide (q = p)) as [->|Hne].
    + rewrite Hcp. rewrite list_lookup_insert_eq by by apply lookup_lt_Some in Hcp.
      split; intros; discriminate.
    + by rewrite list_lookup_insert_ne.
  - exists slots'. split_and!; [done|done|by rewrite H3, subscribe_length| |by rewrite H5, errors_subscribe].
    rewrite H4. simpl. unfold subscribe.
    destruct (heap c !! p) as [[rs sl|o']|] eqn:Hcp; simpl.
    + destruct (heap s !! p) as [[|o]|] eqn:Hsp; try done.
      apply (Hsame p o Hp) in Hsp. congruence.
    + apply (Hsame p o' Hp) in Hcp. rewrite Hcp. by rewrite <- app_assoc.
    + destruct (heap s !! p) as [[|o]|] eqn:Hsp; try done.
      apply (Hsame p o Hp) in Hsp. congruence.
Qed.

(** The call: the promise [all] returned waits with its slots, the promise
    [then] returned is pending. *)
Lemma promise_for_dict_schedules r :
  (exists q, values value !! r = Some (VPromise q)) ->
  exists s1 slots,
    promise_for_dict value s = (Ok t, s1) /\
    heap s1 !! a = Some (Pending [R] slots) /\ slots !! r = Some None /\
    heap s1 !! t = Some (Pending [] []) /\
    queue s1 = queue s ++ scheduled 0 (values value) /\
    errors s1 = errors s.
Proof.
  intros [q Hq].
  set (n := length (values value)).
  set (c0 := set_heap (fun h => h ++ [Pending [] (replicate n None)]) s).
  destruct (all_collect_scheduled r (values value) 0 c0 (replicate n None))
    as (slots & Ha & Hslot & Hlen & Hqueue & Herr).
  - exact Hexist.
  - intros v _. rewrite Nat.sub_0_r, Hq. by intros [= <-].
  - apply lookup_alloc.
  - apply lookup_replicate. split; [done|]. by apply lookup_lt_Some in Hq.
  - intros p o Hp. simpl. by rewrite lookup_app_l.
  - set (c1 := all_collect a 0 (values value) c0) in *.
    assert (Hlen1 : length (heap c1) = S a).
    { rewrite Hlen. simpl. rewrite length_app. simpl. lia. }
    assert (Hcheck : all_check a c1 = c1).
    { unfold all_check. rewrite Ha. by rewrite (mapM_id_unfilled _ r). }
    unfold promise_for_dict, bind.
    rewrite Promise_all_returns. fold n. fold c0. fold c1. rewrite Hcheck.
    rewrite Promise_then_returns, Hlen1.
    eexists _, slots. split; [reflexivity|].
    erewrite subscribe_pending by (simpl; by apply lookup_alloc_old).
    simpl. split_and!; [| done | | done | done].
    + rewrite list_lookup_insert_eq; [done|]. rewrite length_app. simpl. lia.
    + rewrite list_lookup_insert_ne by lia. rewrite <- Hlen1. apply lookup_alloc.
Qed.

(** A reaction to a fulfilment fills its slot; the slot [r] stays empty, so
    the promise keeps waiting. *)
Lemma drain_fulfilled r L : forall c slots rest,
  queue c = L ++ rest -> Forall (fills_before r) L ->
  heap c !! a = Some (Pending [R] slots) -> slots !! r = Some None ->
  queue (run_queue (length L) c) = rest /\
  (exists slots', heap (run_queue (length L) c) !! a = Some (Pending [R] slots') /\
                  slots' !! r = Some None) /\
  heap (run_queue (length L) c) !! t = heap c !! t /\
  errors (run_queue (length L) c) = errors c.
Proof.
  induction L as [|x L IH]; intros c slots rest Hq HL Ha Hslot.
  { simpl. split_and!; [done| |done..]. by exists slots. }
  apply Forall_cons in HL as [(v & j & -> & Hj) HL].
  change (length (TReact (Fulfilled v) (RAll j a) :: L)) with (S (length L)).
  rewrite (run_queue_cons _ _ (L ++ rest) _ Hq).
  pose proof (lookup_lt_Some _ _ _ Ha) as Hlt.
  assert (Hrun : run_task (TReact (Fulfilled v) (RAll j a))
                   (set_queue (fun _ => L ++ rest) c) =
                 set_heap (fun h => <[a := Pending [R] (<[j := Some v]> slots)]> h)
                   (set_queue (fun _ => L ++ rest) c)).
  { simpl. unfold set_slot. simpl. rewrite Ha.
    unfold all_check. simpl. rewrite list_lookup_insert_eq by done.
    rewrite (mapM_id_unfilled _ r); [done|].
    by rewrite list_lookup_insert_ne by lia. }
  rewrite Hrun.
  destruct (IH (set_heap (fun h => <[a := Pending [R] (<[j := Some v]> slots)]> h)
                  (set_queue (fun _ => L ++ rest) c))
              (<[j := Some v]> slots) rest) as (H1 & H2 & H3 & H4); try done.
  - simpl. by apply list_lookup_insert_eq.
  - by rewrite list_lookup_insert_ne by lia.
  - split_and!; [done|done| |done].
    rewrite H3. simpl. by rewrite list_lookup_insert_ne by lia.
Qed.

(** Once the promise [all] returned has settled, its reactions do nothing. *)
Lemma collects_noop x o c :
  collects x -> heap c !! a = Some (Settled o) -> run_task x c = c.
Proof.
  intros (o' & j & ->) Ha. destruct o' as [v|e]; simpl.
  - unfold set_slot. rewrite Ha. unfold all_check. by rewrite Ha.
  - by rewrite (settle_settled _ _ o).
Qed.

Lemma drain_collects L : forall c rest o,
  queue c = L ++ rest -> Forall collects L -> heap c !! a = Some (Settled o) ->
  run_queue (length L) c = set_queue (fun _ => rest) c.
Proof.
  induction L as [|x L IH]; intros c rest o Hq HL Ha.
  { simpl in *. destruct c; simpl in *. by subst. }
  apply Forall_cons in HL as [Hx HL].
  change (length (x :: L)) with (S (length L)).
  rewrite (run_queue_cons _ _ (L ++ rest) _ Hq).
  rewrite (collects_noop x o) by done.
  by rewrite (IH _ rest o).
Qed.

Lemma promise_for_dict_rejected (e : Exception) :
  queue s = [] ->
  first_rejection s (values value) = Some e ->
  exists s1 k,
    promise_for_dict value s = (Ok t, s1) /\
    forall fuel, k <= fuel ->
      heap (run_queue fuel s1) !! t = Some (Settled (Rejected e)) /\
      errors (run_queue fuel s1) = errors s.
Proof.
  intros Hq0 Hfirst.
  destruct (first_rejection_scheduled (values value) e 0 Hfirst)
    as (r & L1 & L2 & Hr & HL & H1 & H2).
  simpl in HL, H1.
  destruct (promise_for_dict_schedules r Hr)
    as (s1 & slots & Hp & Ha & Hslot & Ht & Hqueue & Herr).
  rewrite Hq0, HL in Hqueue. simpl in Hqueue.
  exists s1, (length L1 + (1 + (length L2 + 1))). split; [done|].
  intros fuel Hfuel.
  replace fuel
    with (length L1 + (1 + (length L2 + (1 + (fuel - (length L1 + (1 + (length L2 + 1))))))))
    by lia.
  rewrite run_queue_add.
  destruct (drain_fulfilled r L1 s1 slots _ Hqueue H1 Ha Hslot)
    as (HqA & (slotsA & HaA & _) & HtA & HerrA).
  set (cA := run_queue (length L1) s1) in *.
  rewrite run_queue_add. rewrite (run_queue_cons 0 _ _ _ HqA).
  cbn [run_queue run_task run_reaction].
  erewrite settle_pending by (simpl; exact HaA).
  set (cB := schedule (TReact (Rejected e) <$> [R])
               (set_heap (fun h => <[a := Settled (Rejected e)]> h)
                  (set_queue (fun _ => L2) cA))).
  pose proof (lookup_lt_Some _ _ _ HaA) as HltA.
  assert (HaB : heap cB !! a = Some (Settled (Rejected e))).
  { simpl. by apply list_lookup_insert_eq. }
  assert (HtB : heap cB !! t = Some (Pending [] [])).
  { simpl. rewrite list_lookup_insert_ne by lia. by rewrite HtA. }
  rewrite run_queue_add.
  rewrite (drain_collects L2 cB [TReact (Rejected e) R] (Rejected e)); [|done..].
  erewrite (run_queue_cons _ _ []); [|reflexivity].
  cbn [run_task run_reaction].
  erewrite settle_pending by (simpl; exact HtB).
  rewrite run_queue_empty by done.
  simpl. split; [|by rewrite HerrA].
  apply list_lookup_insert_eq. by apply lookup_lt_Some in HtB.
Qed.

End PromiseForDictRejects.

(** X8: [promise_for_dict] has no continuation for a rejection.  When a value
    of the mapping is a promise that has been rejected, the promise
    [promise_for_dict] returns is rejected as well, with the first rejection
    in the order of the mapping; no mapping is made, and the error list is
    left as it is. *)
Theorem promise_for_dict_passes_rejection_on (value : dict) s (e : Exception) :
  queue s = [] ->
  (forall q, VPromise q ∈ values value -> q < length (heap s)) ->
  first_rejection s (values value) = Some e ->
  exists s1 k,
    promise_for_dict value s = (Ok (S (length (heap s))), s1) /\
    forall fuel, k <= fuel ->
      heap (run_queue fuel s1) !! S (length (heap s)) = Some (Settled (Rejected e)) /\
      errors (run_queue fuel s1) = errors s.
Proof.
  intros Hq Hexist Hfirst. exact (promise_for_dict_rejected value s Hexist e Hq Hfirst).
Qed.


(** *** [complete_value]: when the promise settles *)

(** X4: for [complete_value] it makes no difference whether the promise it
    is given has settled before the call or settles after it.  With the
    settlement of a pending promise scheduled, the call and two turns of the
    loop leave the state that the call and one turn leave when the promise
    has settled already. *)
Theorem complete_value_settled_before_or_after (return_type : GraphQLOutputType)
    (field_nodes : list FieldNode) (info : GraphQLResolveInfo) (path : Path)
    p o sl s :
  heap s !! p = Some (Pending [] sl) ->
  queue s = [TSettle p o] ->
  run_queue 2 (complete_value return_type field_nodes info path (VPromise p) s).2 =
  run_queue 1
    (complete_value return_type field_nodes info path (VPromise p)
       (MkState (errors s) (<[p := Settled o]> (heap s)) [] (world s))).2.
Proof.
  intros Hp Hq. pose proof (lookup_lt_Some _ _ _ Hp) as Hlt.
  set (R := RThen (Some (handle_resolve return_type field_nodes info path))
              (Some (handle_error return_type field_nodes path)) (length (heap s))).
  assert (Hleft : (complete_value return_type field_nodes info path (VPromise p) s).2 =
    MkState (errors s) (<[p := Pending [R] sl]> (heap s) ++ [Pending [] []])
      [TSettle p o] (world s)).
  { simpl. erewrite subscribe_pending by by apply lookup_alloc_old.
    unfold set_heap. simpl. rewrite Hq. by rewrite insert_app_l. }
  assert (Hright : (complete_value return_type field_nodes info path (VPromise p)
       (MkState (errors s) (<[p := Settled o]> (heap s)) [] (world s))).2 =
    MkState (errors s) (<[p := Settled o]> (heap s) ++ [Pending [] []])
      [TReact o R] (world s)).
  { simpl. rewrite length_insert. fold R.
    erewrite subscribe_settled; [reflexivity|].
    simpl. apply lookup_alloc_old. by apply list_lookup_insert_eq. }
  rewrite Hleft, Hright.
  erewrite (run_queue_cons 1); [|reflexivity].
  cbn [run_task]. erewrite settle_pending; last first.
  { simpl. apply lookup_alloc_old. by apply list_lookup_insert_eq. }
  unfold schedule, set_queue, set_heap. simpl.
  rewrite insert_app_l by (rewrite length_insert; lia).
  by rewrite list_insert_insert_eq.
Qed.

(** X5: a failure while the settled value is completed is no business of
    [handle_error].  When the promise is fulfilled with [v] and the base
    class's [complete_value] raises on [v], the promise [complete_value] gave
    out is rejected with that exception; [handle_field_error] is not called,
    so the error list and the world are as the failed completion left
    them. *)
Theorem complete_value_failure_rejects (return_type : GraphQLOutputType)
    (field_nodes : list FieldNode) (info : GraphQLResolveInfo) (path : Path)
    p v s (e : Exception) s2 :
  heap s !! p = Some (Settled (Fulfilled v)) ->
  queue s = [] ->
  is_thenable v = false ->
  super_complete_value return_type field_nodes info path v
    (set_heap (fun h => h ++ [Pending [] []]) s) = (Raise e, s2) ->
  heap s2 !! length (heap s) = Some (Pending [] []) ->
  heap (run_queue 1 (complete_value return_type field_nodes info path (VPromise p) s).2)
    !! length (heap s) = Some (Settled (Rejected e)) /\
  errors (run_queue 1 (complete_value return_type field_nodes info path (VPromise p) s).2)
    = errors s2 /\
  world (run_queue 1 (complete_value return_type field_nodes info path (VPromise p) s).2)
    = world s2.
Proof.
  intros Hp Hq Hv Hraise Ht.
  assert (Hrun :
    run_queue 1 (complete_value return_type field_nodes info path (VPromise p) s).2 =
    settle (length (heap s)) (Rejected e) s2).
  { simpl. rewrite (subscribe_settled _ _ (Fulfilled v)) by by apply lookup_alloc_old.
    unfold step, schedule, set_queue. simpl. rewrite Hq. simpl.
    unfold finish, complete_value. rewrite Hv.
    replace (MkState (errors s) (heap s ++ [Pending [] []]) [] (world s))
      with (set_heap (fun h => h ++ [Pending [] []]) s)
      by (unfold set_heap; by rewrite Hq).
    by rewrite Hraise. }
  rewrite Hrun, errors_settle, world_settle. split_and!; [|done..].
  rewrite (settle_pending _ _ _ _ _ Ht). simpl.
  apply list_lookup_insert_eq. by apply lookup_lt_Some in Ht.
Qed.


(** *** [build_response]: when the envelope builder raises *)

(** X6: [build_response] has no handler around the envelope builder.  When
    the base class's [build_response] raises, the exception leaves
    [build_response]: at once for data that is no promise, and through
    [promise.get()] for a promise, after the rejection (if any) was appended
    to the error list. *)
Theorem build_response_raises_what_the_builder_raises (fuel : nat) (data : Value) s
    (e : Exception) s' :
  3 <= fuel ->
  match data with
  | VPromise p =>
      forall o, settles_to s p o ->
      super_build_response (settled_data o)
        (MkState (errors s ++ recorded o)
           (<[p := Settled o]> (heap s)
              ++ [Settled (Fulfilled (settled_data o)); Pending [] []])
           [] (world s)) = (Raise e, s') ->
      heap s' = <[p := Settled o]> (heap s)
                  ++ [Settled (Fulfilled (settled_data o)); Pending [] []] ->
      build_response fuel data s =
        Some (Raise e, settle (S (length (heap s))) (Rejected e) s')
  | _ =>
      super_build_response data s = (Raise e, s') ->
      build_response fuel data s = Some (Raise e, s')
  end.
Proof.
  intros Hfuel.
  destruct data as [| | | | | | |p|];
    try (intros Hr; unfold build_response; simpl; by rewrite Hr).
  intros o Hsettles Hr Hheap.
  destruct fuel as [|[|[|n]]]; [lia..|].
  destruct (build_response_waits n p o s Hsettles) as (m & Hm & ->).
  destruct m as [|[|m]]; [lia..|].
  set (h := <[p := Settled o]> (heap s)) in *.
  assert (Hlen : length h = length (heap s)) by apply length_insert.
  rewrite <- Hlen.
  erewrite Promise_get_step; [|apply lookup_alloc2_snd|reflexivity].
  unfold set_queue. cbn [queue run_task errors heap world].
  rewrite on_rejected_runs.
  erewrite Promise_get_step; [|apply lookup_alloc2_snd|reflexivity].
  unfold set_queue. cbn [queue run_task errors heap world].
  rewrite on_resolve_reaction. unfold finish. rewrite Hr.
  apply Promise_get_rejected.
  erewrite settle_pending by (rewrite Hheap; apply lookup_alloc2_snd).
  simpl. rewrite Hheap. apply list_lookup_insert_eq.
  rewrite length_app. simpl. lia.
Qed.


Lemma subscribe_at (h l : list pstate) k rs sl r (errs : list Exception)
    (q : list task) (w : World) :
  l !! k = Some (Pending rs sl) ->
  subscribe (length h + k) r (MkState errs (h ++ l) q w) =
  MkState errs (h ++ <[k := Pending (rs ++ [r]) sl]> l) q w.
Proof.
  intros Hl. erewrite subscribe_pending.
  - unfold set_heap. cbn [errors heap queue world]. by rewrite insert_app_r.
  - cbn [heap]. rewrite lookup_app_r by lia.
    by replace (length h + k - length h) with k by lia.
Qed.

(** *** [execute_operation], then [build_response] *)

(** X7: the promise around the operation is transparent for an execution
    that runs at once.  When the base class's [execute_operation] returns a
    value that is no promise, or raises, makes and settles no promise and
    schedules nothing, then [build_response] on the promise
    [execute_operation] returned returns or raises what the base class's
    envelope builder returns or raises: called on that value with the errors
    as the execution left them, or, when the execution raised, on [None] with
    the exception appended to them.  The builder leaves the promises alone
    and returns no promise. *)
Theorem execute_operation_then_build_response (fuel : nat)
    (operation : OperationDefinitionNode) (root_value : Value) s
    (res : result Value) s2 (res' : result Value) s' :
  3 <= fuel ->
  queue s = [] ->
  super_execute_operation operation root_value (in_flight s) = (res, s2) ->
  heap s2 = heap (in_flight s) ->
  queue s2 = [] ->
  (forall x, res = Ok x -> is_thenable x = false) ->
  super_build_response (settled_data (outcome_of res))
    (MkState (errors s2 ++ recorded (outcome_of res))
       (heap s ++ [Settled (Fulfilled VNone); Settled (outcome_of res);
                   Settled (Fulfilled (settled_data (outcome_of res)));
                   Pending [] []])
       [] (world s2)) = (res', s') ->
  heap s' = heap s ++ [Settled (Fulfilled VNone); Settled (outcome_of res);
                       Settled (Fulfilled (settled_data (outcome_of res)));
                       Pending [] []] ->
  (forall r, res' = Ok r -> is_thenable r = false) ->
  build_response fuel (VPromise (S (length (heap s))))
    (execute_operation operation root_value s).2 =
  Some (res', settle (3 + length (heap s)) (outcome_of res') s').
Proof.
  intros Hfuel Hq Hexec Hheap Hq2 Hplain Hr Hheap' Hplain'.
  set (o := outcome_of res) in *.
  set (h0 := heap s ++ [Settled (Fulfilled VNone)]).
  assert (Hh0 : length h0 = S (length (heap s))).
  { unfold h0. rewrite length_app. simpl. lia. }
  set (h := h0 ++ [Settled o]).
  assert (Hh : length h = 2 + length (heap s)).
  { unfold h. rewrite length_app, Hh0. simpl. lia. }
  assert (Hlist : forall x y z : pstate,
            heap s ++ [Settled (Fulfilled VNone); x; y; z] = (h0 ++ [x]) ++ [y; z]).
  { intros. unfold h0. by rewrite <- !app_assoc. }
  rewrite Hlist in Hr, Hheap'. fold h in Hr, Hheap'.
  destruct fuel as [|[|[|n]]]; [lia..|].
  assert (Hget := build_response_reacts n o h (errors s2) (world s2) res' s'
                    Hr Hplain' Hheap').
  rewrite Hh in Hget. cbn [Nat.add] in Hget. cbn [Nat.add]. rewrite <- Hget.
  rewrite execute_operation_state. cbn [snd].
  unfold build_response. cbn [is_thenable]. rewrite build_response_registers.
  cbn [heap set_heap errors queue world].
  rewrite Hq. cbn [app].
  assert (Hl2 : length (heap s ++ [Settled (Fulfilled VNone); Pending [] []]) =
                2 + length (heap s)).
  { rewrite length_app. simpl. lia. }
  rewrite Hl2. cbn [Nat.add].
  assert (Hreg :
    subscribe (S (S (length (heap s))))
      (RThen (Some on_resolve) None (S (S (S (length (heap s))))))
      (set_heap (fun h1 => h1 ++ [Pending [] []])
         (subscribe (S (length (heap s)))
            (RThen None (Some on_rejected) (S (S (length (heap s)))))
            (set_heap (fun h1 => h1 ++ [Pending [] []])
               (MkState (errors s)
                  (heap s ++ [Settled (Fulfilled VNone); Pending [] []])
                  [TReact (Fulfilled VNone)
                     (RThen (Some (promise_executor operation root_value)) None
                        (S (length (heap s))))]
                  (world s))))) =
    set_queue (fun _ => [TReact (Fulfilled VNone)
                     (RThen (Some (promise_executor operation root_value)) None
                        (S (length (heap s))))]) (in_flight s)).
  { unfold in_flight, set_queue. cbn [errors heap queue world].
    unfold set_heap at 2. cbn [errors heap queue world].
    rewrite <- !app_assoc. cbn [app].
    replace (S (length (heap s))) with (length (heap s) + 1) by lia.
    rewrite (subscribe_at (heap s) _ 1 [] []) by reflexivity.
    unfold set_heap. cbn [errors heap queue world insert list_insert app].
    rewrite <- !app_assoc. cbn [app].
    replace (S (length (heap s) + 1)) with (length (heap s) + 2) by lia.
    rewrite (subscribe_at (heap s) _ 2 [] []) by reflexivity.
    cbn [insert list_insert app].
    by replace (length (heap s) + 2) with (2 + length (heap s)) by lia. }
  rewrite Hreg.
  erewrite (Promise_get_step _ _ [] []); cycle 1.
  { unfold in_flight, set_queue. cbn [heap].
    replace (S (S (S (length (heap s))))) with (length (heap s) + 3) by lia.
    rewrite lookup_app_r by lia.
    by replace (length (heap s) + 3 - length (heap s)) with 3 by lia. }
  { reflexivity. }
  unfold set_queue. cbn [queue run_task run_reaction errors heap world apply_fulfilled].
  change (MkState (errors (in_flight s)) (heap (in_flight s)) [] (world (in_flight s)))
    with (in_flight s).
  unfold finish. rewrite Hexec.
  assert (Hsettle :
    match res with
    | Ok v => resolve_with (S (length (heap s))) v s2
    | Raise e => settle (S (length (heap s))) (Rejected e) s2
    end = settle (S (length (heap s))) o s2).
  { unfold o. destruct res as [v|e]; [|done].
    specialize (Hplain v eq_refl). by destruct v. }
  rewrite Hsettle. f_equal.
  erewrite settle_pending; cycle 1.
  { rewrite Hheap. unfold in_flight. cbn [heap].
    replace (S (length (heap s))) with (length (heap s) + 1) by lia.
    rewrite lookup_app_r by lia.
    by replace (length (heap s) + 1 - length (heap s)) with 1 by lia. }
  unfold schedule, set_queue, set_heap. cbn [errors heap queue world].
  rewrite Hheap, Hq2. unfold in_flight. cbn [heap fmap list_fmap app].
  replace (S (length (heap s))) with (length (heap s) + 1) at 1 by lia.
  rewrite insert_app_r. cbn [insert list_insert].
  unfold h, h0. by rewrite <- !app_assoc.
Qed.

End Properties.

(** ** The properties on the small schema *)

Import Demo.

Lemma is_awaitable_false_on_promises_witness :
  default_is_awaitable (VPromise 0) = true /\ is_awaitable (VPromise 0) = false.
Proof.
  split; [reflexivity|].
  apply (is_awaitable_false_on_promises (VPromise 0)). reflexivity.
Defined.

Lemma is_awaitable_default_elsewhere_witness :
  is_awaitable (VAwaitable 0) = true /\ is_awaitable (VInt 1) = false.
Proof.
  split.
  - apply (is_awaitable_default_elsewhere (VAwaitable 0)). split; reflexivity.
  - rewrite (proj1 (is_awaitable_default_elsewhere (VInt 1))); reflexivity.
Defined.

Lemma NoDup_axc : NoDup axc.*1.
Proof. simpl. distinct. Qed.

Lemma NoDup_abcd : NoDup abcd.*1.
Proof. simpl. distinct. Qed.

Lemma execute_fields_resolves_each_key_once_witness :
  execute_fields_loop "Query" VNone None axc false [] s0 =
  (Ok (false, [("a", VInt 1); ("c", VInt 3)]),
   MkState [] [Pending [] []; Pending [] []] []
     [MkPath None (KStr "c") (Some "Query");
      MkPath None (KStr "x") (Some "Query");
      MkPath None (KStr "a") (Some "Query")]) /\
  execute_fields "Query" VNone None axc s0 =
  (Ok (VDict [("a", VInt 1); ("c", VInt 3)]),
   MkState [] [Pending [] []; Pending [] []] []
     [MkPath None (KStr "c") (Some "Query");
      MkPath None (KStr "x") (Some "Query");
      MkPath None (KStr "a") (Some "Query")]).
Proof.
  pose proof (execute_fields_resolves_each_key_once "Query" VNone None axc s0 NoDup_axc)
    as (_ & Hloop & Hexec & _).
  split; [exact Hloop|exact Hexec].
Defined.

Lemma execute_fields_plain_or_deferred_witness :
  execute_fields "Query" VNone None axc s0 =
  (Ok (VDict [("a", VInt 1); ("c", VInt 3)]),
   MkState [] [Pending [] []; Pending [] []] []
     [MkPath None (KStr "c") (Some "Query");
      MkPath None (KStr "x") (Some "Query");
      MkPath None (KStr "a") (Some "Query")]) /\
  exists t s2, execute_fields "Query" VNone None abcd s0 = (Ok (VPromise t), s2).
Proof.
  split.
  - exact (@execute_fields_plain_or_deferred core base "Query" VNone None axc s0 _ _
             NoDup_axc eq_refl).
  - destruct (@execute_fields_plain_or_deferred core base "Query" VNone None abcd s0
                abcd_results s_abcd NoDup_abcd eq_refl)
      as (t & s2 & _ & Hexec).
    exists t, s2. exact Hexec.
Defined.

Lemma promise_for_dict_keeps_key_order_witness :
  exists s1 k,
    promise_for_dict abcd_results s_d_then_b = (Ok 3, s1) /\
    forall fuel, k <= fuel ->
      heap (run_queue fuel s1) !! 3 =
      Some (Settled (Fulfilled
        (VDict [("a", VInt 1); ("b", VInt 2); ("c", VInt 3); ("d", VInt 4)]))).
Proof.
  apply (@promise_for_dict_keeps_key_order core base abcd_results s_d_then_b
           settles_as [1; 0]).
  - simpl. distinct.
  - distinct.
  - reflexivity.
  - intros q Hq. exists [].
    apply elem_of_cons in Hq as [->|Hq]; [reflexivity|].
    apply elem_of_cons in Hq as [->|Hq]; [reflexivity|].
    by apply elem_of_nil in Hq.
  - intros q Hq. right. simpl in Hq.
    repeat (apply elem_of_cons in Hq as [Hq|Hq]; [try discriminate|]).
    + injection Hq as ->. right. left.
    + injection Hq as ->. left.
    + by apply elem_of_nil in Hq.
Defined.



Lemma complete_value_rejection_goes_to_handler_witness :
  heap (run_queue 1 (complete_value false ["b"] tt path_b (VPromise 0) s_rejected).2)
    !! 1 = Some (Settled (Fulfilled VNone)).
Proof.
  exact (proj2 (@complete_value_rejection_goes_to_handler core base
                  false ["b"] tt path_b 0 (Err "X") s_rejected (Ok tt)
                  (MkState [Located (Err "X") ["b"] [KStr "b"]]
                     [Settled (Rejected (Err "X")); Pending [] []] [] [])
                  eq_refl eq_refl eq_refl eq_refl)).
Defined.

(** C4 as the specification states it fails for a field of a non-null type:
    graphql-core's handler raises the located error instead of recording it,
    so the field's promise is rejected, not fulfilled with [None], and the
    error list stays empty. *)
Lemma complete_value_rejection_not_always_None :
  heap (run_queue 1 (complete_value true ["b"] tt path_b (VPromise 0) s_rejected).2)
    !! 1 = Some (Settled (Rejected (Located (Err "X") ["b"] [KStr "b"]))) /\
  heap (run_queue 1 (complete_value true ["b"] tt path_b (VPromise 0) s_rejected).2)
    !! 1 <> Some (Settled (Fulfilled VNone)) /\
  errors (run_queue 1 (complete_value true ["b"] tt path_b (VPromise 0) s_rejected).2)
    = [].
Proof. split_and!; [reflexivity|discriminate|reflexivity]. Qed.

Lemma complete_value_recurses_on_fulfilment_witness :
  run_queue 1 (complete_value false ["b"] tt path_b (VPromise 0) s_fulfilled).2 =
  finish 1 (complete_value false ["b"] tt path_b (VInt 2))
    (set_heap (fun h => h ++ [Pending [] []]) s_fulfilled).
Proof.
  destruct (@complete_value_recurses_on_fulfilment core base
              false ["b"] tt path_b (VPromise 0) s_fulfilled) as [_ Hpromise].
  destruct (Hpromise 0 eq_refl) as (_ & _ & Hrun).
  exact (Hrun (VInt 2) eq_refl eq_refl).
Defined.

Lemma demo_base_append_only : base_append_only.
Proof.
  split_and!; try (intros; intros s; reflexivity).
  intros e [] s; simpl; [done|]. by apply prefix_app_r.
Qed.



(** *** The further properties on the small schema *)

Lemma execute_fields_stops_at_first_raise_witness :
  @execute_fields core refusing "Query" VNone None anc s0 =
  (Raise (Located (Err "X") ["n"] [KStr "n"]),
   MkState [] [Pending [] []; Pending [] []] []
     ([MkPath None (KStr "a") (Some "Query")] : list Path)).
Proof.
  exact (@execute_fields_stops_at_first_raise core refusing "Query" VNone None
           [("a", ["a"])] [("c", ["c"])] "n" ["n"] s0 [("a", VInt 1)]
           (MkState [] [Pending [] []; Pending [] []] []
              ([MkPath None (KStr "a") (Some "Query")] : list Path))
           (Located (Err "X") ["n"] [KStr "n"])
           (MkState [] [Pending [] []; Pending [] []] []
              ([MkPath None (KStr "a") (Some "Query")] : list Path))
           eq_refl eq_refl).
Defined.

Lemma promise_for_dict_passes_rejection_on_witness :
  exists s1 k,
    promise_for_dict abcd_results s_d_rejected = (Ok 3, s1) /\
    forall fuel, k <= fuel ->
      heap (run_queue fuel s1) !! 3 = Some (Settled (Rejected (Err "X"))) /\
      errors (run_queue fuel s1) = [].
Proof.
  apply (@promise_for_dict_passes_rejection_on core base abcd_results s_d_rejected
           (Err "X")).
  - reflexivity.
  - intros q Hq. simpl in Hq.
    repeat (apply elem_of_cons in Hq as [Hq|Hq]; [try discriminate|]).
    + injection Hq as ->. simpl. lia.
    + injection Hq as ->. simpl. lia.
    + by apply elem_of_nil in Hq.
  - reflexivity.
Defined.

Lemma complete_value_settled_before_or_after_witness :
  run_queue 2 (complete_value false ["b"] tt path_b (VPromise 0) s_b_next).2 =
  run_queue 1 (complete_value false ["b"] tt path_b (VPromise 0) s_rejected).2.
Proof.
  exact (@complete_value_settled_before_or_after core base false ["b"] tt path_b
           0 (@Rejected core (Err "X")) [] s_b_next eq_refl eq_refl).
Defined.

Lemma complete_value_failure_rejects_witness :
  heap (@run_queue core refusing 1
          (@complete_value core refusing true ["b"] tt path_b (VPromise 0) s_null).2)
    !! 1 = Some (Settled (Rejected (Err "null"))).
Proof.
  exact (proj1 (@complete_value_failure_rejects core refusing true ["b"] tt path_b
                  0 VNone s_null (Err "null")
                  (@MkState core [] [Settled (Fulfilled VNone); Pending [] []] [] [])
                  eq_refl eq_refl eq_refl eq_refl eq_refl)).
Defined.

Lemma build_response_raises_what_the_builder_raises_witness :
  (fun r => (r.1, errors r.2)) <$>
    @build_response core refusing 3 (VPromise 0) s_rejected =
  Some (Raise (Err "no data"), [Err "X"]).
Proof.
  assert (Hb :
    @build_response core refusing 3 (VPromise 0) s_rejected =
    Some (Raise (Err "no data"),
          settle 2 (Rejected (Err "no data"))
            (MkState [Err "X"]
               [Settled (Rejected (Err "X")); Settled (Fulfilled VNone); Pending [] []]
               [] []))).
  { exact (@build_response_raises_what_the_builder_raises core refusing 3 (VPromise 0)
             s_rejected _ _ (le_n 3) (@Rejected core (Err "X"))
             (or_introl (conj eq_refl eq_refl)) eq_refl eq_refl). }
  rewrite Hb. reflexivity.
Defined.

Lemma execute_operation_then_build_response_witness :
  (fun r => (r.1, errors r.2)) <$>
    @build_response core aborting 3 (VPromise 1)
      (execute_operation "q" VNone s_empty).2 =
  Some (Ok (VDict [("data", VNone); ("errors", VInt 1)]), [Err "q"]).
Proof.
  assert (Hplain : forall x : Value,
            @Raise core Value (Err "q") = Ok x -> is_thenable x = false)
    by (intros x Hx; discriminate Hx).
  assert (Hplain' : forall r : Value,
            @Ok core Value (VDict [("data", VNone); ("errors", VInt 1)]) = Ok r ->
            is_thenable r = false)
    by (intros r [= <-]; reflexivity).
  assert (Hb :
    @build_response core aborting 3 (VPromise 1)
      (execute_operation "q" VNone s_empty).2 =
    Some (Ok (VDict [("data", VNone); ("errors", VInt 1)]),
          settle 3 (Fulfilled (VDict [("data", VNone); ("errors", VInt 1)]))
            (MkState [Err "q"]
               [Settled (Fulfilled VNone); Settled (Rejected (Err "q"));
                Settled (Fulfilled VNone); Pending [] []] [] []))).
  { exact (@execute_operation_then_build_response core aborting 3 "q" VNone s_empty
             (@Raise core Value (Err "q")) (@in_flight core s_empty) _ _
             (le_n 3) eq_refl eq_refl eq_refl eq_refl Hplain eq_refl eq_refl Hplain'). }
  rewrite Hb. reflexivity.
Defined.

(** *** The scenarios of the specification, run on the small schema *)

(** [{ a b c }] with [b] deferred: the response has the fields in the order
    of the query and no error. *)
Example query_with_a_deferred_field :
  fst <$> execute 20 "a b c" s0 =
  Some (Ok (VDict [("data", VDict [("a", VInt 1); ("b", VInt 2); ("c", VInt 3)]);
                   ("errors", VInt 0)])).
Proof. vm_compute. reflexivity. Qed.

(** [{ a f }] with [f] nullable, deferred and rejected with X: [f] is null
    and the one error recorded is X, located at the path of [f]. *)
Example query_with_a_rejected_nullable_field :
  (fun r => (r.1, errors r.2)) <$> execute 20 "a f" s0 =
  Some (Ok (VDict [("data", VDict [("a", VInt 1); ("f", VNone)]);
                   ("errors", VInt 1)]),
        [Located (Err "X") ["f"] [KStr "f"]]).
Proof. vm_compute. reflexivity. Qed.

(** [{ a n }] with [n] non-null, deferred and rejected: the failure reaches
    the root, the data is null and the located error is in the list. *)
Example query_with_a_rejected_non_null_field :
  (fun r => (r.1, errors r.2)) <$> execute 20 "a n" s0 =
  Some (Ok (VDict [("data", VNone); ("errors", VInt 1)]),
        [Located (Err "X") ["n"] [KStr "n"]]).
Proof. vm_compute. reflexivity. Qed.
